(** * update-versions.py: the tag resolver and the config updater

    A shallow embedding of [get_latest_tag] and [update_config_files]
    from [update-versions.py].  The script's collaborators (the
    [requests] HTTP client, [packaging.version], PyYAML and the file
    system) are not part of the script: the HTTP client, the version
    library and the YAML library enter as section variables, the file
    system as an explicit store that is threaded through the updater. *)

From Stdlib Require Import Ascii List ZArith Bool Lia Permutation.
From stdpp Require Import gmap strings pretty.
Import ListNotations.

Local Open Scope string_scope.
Local Open Scope list_scope.

(** ** Python preliminaries *)

(** The exception classes that can reach one of the script's handlers. *)
Inductive exn : Type :=
  | RequestException   (* requests.RequestException and its subclasses *)
  | AttributeError
  | KeyError
  | TypeError
  | OSError            (* open() failed *)
  | YAMLError.         (* yaml.safe_load failed *)

(** The result of evaluating a block of statements. *)
Inductive result (A : Type) : Type :=
  | Ok (a : A)
  | Raise (e : exn).
Arguments Ok {A} a.
Arguments Raise {A} e.

#[global] Instance result_ret : MRet result := fun A a => Ok a.

#[global] Instance result_bind : MBind result := fun A B k r =>
  match r with
  | Ok a => k a
  | Raise e => Raise e
  end.

(** A function containing a [while] loop is run with a bound on the number
    of iterations; [NoFuel] reports that the bound was reached. *)
Inductive outcome (A : Type) : Type :=
  | Return (a : A)
  | Raised (e : exn)
  | NoFuel.
Arguments Return {A} a.
Arguments Raised {A} e.
Arguments NoFuel {A}.

(** [char.isdigit()] on the characters of a registry tag, which are drawn
    from [[A-Za-z0-9_.-]]. *)
Definition isdigit (c : ascii) : bool :=
  (Ascii.leb "0" c && Ascii.leb c "9")%char.

(** [any(char.isdigit() for char in s)] *)
Fixpoint any_isdigit (s : string) : bool :=
  match s with
  | EmptyString => false
  | String char s' => isdigit char || any_isdigit s'
  end.

Definition has_digit (tag : string) : Prop := any_isdigit tag = true.

(** Truth value of a [str]. *)
Definition str_truthy (s : string) : bool :=
  match s with
  | EmptyString => false
  | String _ _ => true
  end.

(** Truth value of a variable that holds a [str] or [None]. *)
Definition opt_truthy (o : option string) : bool :=
  match o with
  | Some s => str_truthy s
  | None => false
  end.

(** *** Sorting

    [list.sort(reverse=True)] and [sorted(l, reverse=True)]: a stable sort
    into descending order that only asks [x < y] of the elements. *)
Section Sort.
Context {A : Type} (lt : A -> A -> bool).

Fixpoint insert_desc (x : A) (l : list A) : list A :=
  match l with
  | [] => [x]
  | y :: l' => if lt x y then y :: insert_desc x l' else x :: l
  end.

Definition sorted_reverse (l : list A) : list A :=
  fold_right insert_desc [] l.

(** [sorted_reverse l [0]], when [l] is not empty. *)
Definition first_sorted_reverse (l : list A) : option A :=
  head (sorted_reverse l).
End Sort.

(** [s1 < s2] on [str]: lexicographic on code points. *)
Definition str_lt (s1 s2 : string) : bool := String.ltb s1 s2.

(** ** The tag resolver *)

(** What [version.parse(tag)] does with a [str]: a [Version], a
    [LegacyVersion] (packaging before 22), or [InvalidVersion], which is a
    [ValueError]. *)
Inductive parsed (V : Type) : Type :=
  | IsVersion (v : V)
  | IsLegacy
  | Invalid.
Arguments IsVersion {V} v.
Arguments IsLegacy {V}.
Arguments Invalid {V}.

(** The shapes of a decoded response body that the loop tells apart. *)
Inductive entry : Type :=
  | Named (name : string)   (* an object whose "name" is a string *)
  | Unnamed                 (* an object without "name": KeyError *)
  | NotSubscriptable.       (* null or a number: TypeError *)

Inductive results_field : Type :=
  | ResultsAbsent                   (* no "results" key *)
  | ResultsNull                     (* "results": null *)
  | ResultsList (l : list entry).   (* "results": [...] *)

Inductive body : Type :=
  | NotDict                                             (* a JSON array, string, number or null *)
  | Dict (results : results_field) (next : option string).  (* a JSON object *)

(** [requests.get(url, timeout=10)], [raise_for_status()] and [json()]:
    one of them raises a [RequestException] (no connection, a timeout, a
    status that is not a success), or the decoded body is at hand. *)
Inductive response : Type :=
  | Failed
  | Json (b : body).

(** The bodies the Docker Hub API documents: an object whose "results", if
    present, is a list of objects that have a "name". *)
Definition entry_ok (tag : entry) : bool :=
  match tag with
  | Named _ => true
  | _ => false
  end.

Definition body_ok (data : body) : bool :=
  match data with
  | Dict (ResultsList l) _ => forallb entry_ok l
  | Dict ResultsAbsent _ => true
  | _ => false
  end.

Definition response_ok (r : response) : bool :=
  match r with
  | Failed => true
  | Json data => body_ok data
  end.

(** The responses after which the loop knows one more candidate, or
    ends: a failed request, a body on which the turn raises, or a list of
    entries with a name that contains a digit. *)
Definition entry_adds (tag : entry) : bool :=
  match tag with
  | Named n => any_isdigit n
  | _ => true
  end.

Definition page_adds (r : response) : bool :=
  match r with
  | Json (Dict (ResultsList l) _) => existsb entry_adds l
  | Json (Dict ResultsAbsent _) => false
  | _ => true
  end.

(** Local variables of [get_latest_tag] that the loop updates. *)
Record locals : Type := Locals {
  tags_url : option string;
  all_tags : list string;
  current_page : nat;
  max_pages : nat
}.

(** Two responses that differ at most in the order of the entries of
    "results". *)
Definition same_page (r r' : response) : Prop :=
  match r, r' with
  | Json (Dict (ResultsList l) next), Json (Dict (ResultsList l') next') =>
      Permutation l l' /\ next = next'
  | _, _ => r = r'
  end.

(** Locals that differ at most in the order of the candidates. *)
Definition same_locals (st st' : locals) : Prop :=
  tags_url st = tags_url st' /\
  Permutation (all_tags st) (all_tags st') /\
  current_page st = current_page st' /\
  max_pages st = max_pages st'.

Section Resolver.
(** [packaging.version]: the class [Version] with its comparison, and
    [parse]. *)
Variable V : Type.
Variable parse : string -> parsed V.
Variable vcmp : V -> V -> comparison.
(** Whether the installed [packaging.version] has the attribute
    [LegacyVersion]: it has before packaging 22, where the class was
    removed. *)
Variable legacy_defined : bool.
(** The registry, as seen through [requests]. *)
Variable http_get : string -> response.

Definition page_size : string := "20".

(** [data.get('results', [])] *)
Definition get_results (data : body) : result results_field :=
  match data with
  | NotDict => Raise AttributeError
  | Dict ResultsAbsent _ => Ok (ResultsList [])
  | Dict r _ => Ok r
  end.

(** [data.get('next')] *)
Definition get_next (data : body) : result (option string) :=
  match data with
  | NotDict => Raise AttributeError
  | Dict _ n => Ok n
  end.

(** [tag['name']] *)
Definition get_name (tag : entry) : result string :=
  match tag with
  | Named n => Ok n
  | Unnamed => Raise KeyError
  | NotSubscriptable => Raise TypeError
  end.

(** [[tag['name'] for tag in results
      if any(char.isdigit() for char in tag['name'])]] *)
Fixpoint digit_names (results : list entry) : result (list string) :=
  match results with
  | [] => Ok []
  | tag :: rest =>
      n ← get_name tag;
      ns ← digit_names rest;
      Ok (if any_isdigit n then n :: ns else ns)
  end.

Definition comprehension (results : results_field) : result (list string) :=
  match results with
  | ResultsList l => digit_names l
  | ResultsNull => Raise TypeError
  | ResultsAbsent => Ok []
  end.

(** The body of the [try] inside the loop (lines 32-46). *)
Definition try_page (st : locals) (url : string) : result locals :=
  match http_get url with
  | Failed => Raise RequestException
  | Json data =>
      results ← get_results data;
      names ← comprehension results;
      let all_tags' := all_tags st ++ names in
      next ← get_next data;
      let current_page' := S (current_page st) in
      let max_pages' :=
        if (List.length all_tags' <? 5)%nat && opt_truthy next
        then S (max_pages st) else max_pages st in
      Ok (Locals next all_tags' current_page' max_pages')
  end.

(** [while tags_url and current_page < max_pages] *)
Definition loop_guard (st : locals) : bool :=
  opt_truthy (tags_url st) && (current_page st <? max_pages st)%nat.

(** The loop of lines 30-49.  [Return None] is the [return None] of the
    handler; [Return (Some st)] leaves the loop with the locals [st]. *)
Fixpoint fetch_loop (fuel : nat) (st : locals) : outcome (option locals) :=
  if loop_guard st then
    match fuel with
    | O => NoFuel
    | S fuel' =>
        match try_page st (default "" (tags_url st)) with
        | Ok st' => fetch_loop fuel' st'
        | Raise RequestException => Return None
        | Raise e => Raised e
        end
    end
  else Return (Some st).

(** The locals after [k] more turns of the loop, when it takes them and
    each ends without an exception. *)
Fixpoint after_pages (k : nat) (st : locals) : option locals :=
  match k with
  | O => Some st
  | S k' =>
      if loop_guard st then
        match try_page st (default "" (tags_url st)) with
        | Ok st' => after_pages k' st'
        | Raise _ => None
        end
      else None
  end.

Definition initial (repo_name : string) : locals :=
  Locals (Some ("https://hub.docker.com/v2/repositories/" +:+ repo_name
                +:+ "/tags?page_size=" +:+ page_size))
         [] 0 1.

(** The attribute lookup [version.LegacyVersion] of line 60. *)
Definition LegacyVersion : result unit :=
  if legacy_defined then Ok tt else Raise AttributeError.

(** Lines 56-63: the [(parsed_version, tag)] pairs.  A tag on which
    [version.parse] raises is skipped (lines 62-63); for every other tag
    the [isinstance] test looks [version.LegacyVersion] up, and an
    [AttributeError] is not among the exceptions that line 62 catches. *)
Fixpoint valid_tags (tags : list string) : result (list (V * string)) :=
  match tags with
  | [] => Ok []
  | tag :: rest =>
      match parse tag with
      | IsVersion v =>
          _ ← LegacyVersion;
          valid ← valid_tags rest;
          Ok ((v, tag) :: valid)
      | IsLegacy =>
          _ ← LegacyVersion;
          valid_tags rest
      | Invalid => valid_tags rest
      end
  end.

(** The candidates that parse as a [Version], with their versions. *)
Fixpoint version_pairs (tags : list string) : list (V * string) :=
  match tags with
  | [] => []
  | tag :: rest =>
      match parse tag with
      | IsVersion v => (v, tag) :: version_pairs rest
      | _ => version_pairs rest
      end
  end.

(** Whether [version.parse] returns for a candidate, rather than raise. *)
Definition parse_returns (tag : string) : bool :=
  match parse tag with
  | Invalid => false
  | _ => true
  end.

(** [(v1, t1) < (v2, t2)] on tuples: the first components decide unless
    they are equal. *)
Definition pair_lt (a b : V * string) : bool :=
  match vcmp (fst a) (fst b) with
  | Eq => str_lt (snd a) (snd b)
  | Lt => true
  | Gt => false
  end.

(** Lines 54-74: the [try] and its [except Exception], which returns
    [None]. *)
Definition select_latest (tags : list string) : option string :=
  match valid_tags tags with
  | Ok [] => first_sorted_reverse str_lt tags
  | Ok valid => option_map snd (first_sorted_reverse pair_lt valid)
  | Raise _ => None
  end.

Definition get_latest_tag (fuel : nat) (repo_name : string)
  : outcome (option string) :=
  match fetch_loop fuel (initial repo_name) with
  | Return (Some st) => Return (select_latest (all_tags st))
  | Return None => Return None
  | Raised e => Raised e
  | NoFuel => NoFuel
  end.
End Resolver.

(** ** The config updater *)

(** What [yaml.safe_load] builds. *)
#[local] Unset Elimination Schemes.
Inductive yaml : Type :=
  | YNull
  | YBool (b : bool)
  | YInt (n : Z)
  | YFloat (text : string)
  | YStr (s : string)
  | YSeq (l : list yaml)
  | YMap (items : list (yaml * yaml)).   (* a dict, in insertion order *)
#[local] Set Elimination Schemes.

(** [key == k] for a dict key and the [str] [k]. *)
Definition key_is (k : string) (key : yaml) : bool :=
  match key with
  | YStr s => String.eqb s k
  | _ => false
  end.

(** [config.get(k)], which is also [config[k]] when [k in config]. *)
Fixpoint dict_get (k : string) (config : list (yaml * yaml)) : option yaml :=
  match config with
  | [] => None
  | (key, value) :: rest => if key_is k key then Some value else dict_get k rest
  end.

(** [config[k] = v]: an existing key keeps its place, a new one goes last. *)
Fixpoint dict_set (k : string) (v : yaml) (config : list (yaml * yaml))
  : list (yaml * yaml) :=
  match config with
  | [] => [(YStr k, v)]
  | (key, value) :: rest =>
      if key_is k key then (key, v) :: rest
      else (key, value) :: dict_set k v rest
  end.

(** [current_version != latest_tag], where [latest_tag] is a [str] and
    [current_version] is a loaded value or [None] for a missing key. *)
Definition differs (current_version : option yaml) (latest_tag : string) : bool :=
  match current_version with
  | Some (YStr s) => negb (String.eqb s latest_tag)
  | _ => true
  end.

(** A file of the scanned tree. *)
Record file : Type := File {
  contents : string;
  readable : bool;
  writable : bool
}.

(** [with open(path, 'r') as f: f.read()] *)
Definition open_read (disk : gmap string file) (path : string) : result string :=
  match disk !! path with
  | Some f => if readable f then Ok (contents f) else Raise OSError
  | None => Raise OSError
  end.

(** [open(path, 'w')]: the file is created, or emptied. *)
Definition open_write (disk : gmap string file) (path : string)
  : result (gmap string file) :=
  match disk !! path with
  | Some f =>
      if writable f
      then Ok (<[path := File "" (readable f) (writable f)]> disk)
      else Raise OSError
  | None => Ok (<[path := File "" true true]> disk)
  end.

(** The file opened at [path] once [text] has been written to it. *)
Definition write (disk : gmap string file) (path text : string)
  : gmap string file :=
  match disk !! path with
  | Some f => <[path := File text (readable f) (writable f)]> disk
  | None => disk
  end.

(** What [yaml.dump(config, f, ...)] does with the open file [f]: it
    writes the whole text, or it raises after it has written a part of it
    (no part, when the value cannot be represented). *)
Inductive dumped : Type :=
  | Dumped (text : string)
  | DumpFailed (partial : string) (e : exn).

(** The tree and the two counters of [update_config_files]. *)
Record tally : Type := Tally {
  disk : gmap string file;
  updated_count : nat;
  error_count : nat
}.

Fixpoint ends_with_sep (s : string) : bool :=
  match s with
  | EmptyString => false
  | String c EmptyString => Ascii.eqb c "/"
  | String _ s' => ends_with_sep s'
  end.

Definition starts_with_sep (s : string) : bool :=
  match s with
  | String c _ => Ascii.eqb c "/"
  | EmptyString => false
  end.

(** [os.path.join(a, b)] of [posixpath]. *)
Definition path_join (a b : string) : string :=
  if starts_with_sep b then b
  else if negb (str_truthy a) || ends_with_sep a then a +:+ b
  else a +:+ "/" +:+ b.

(** What the turn of the loop for one file comes to. *)
Inductive turn : Type :=
  | Leave                     (* nothing changes *)
  | CountError                (* the handler adds one to [error_count] *)
  | Rewrite (text : string)   (* the file is written, [updated_count] grows *)
  | Spoil (partial : string)  (* the write breaks off, [error_count] grows *)
  | Unfinished.               (* the resolver's loop does not finish *)

(** The same turn taken again, once it has been taken and what it wrote
    reads back as the mapping that was dumped. *)
Definition settle (t : turn) : turn :=
  match t with
  | Rewrite _ => Leave
  | _ => t
  end.

Section Updater.
Variable V : Type.
Variable parse : string -> parsed V.
Variable vcmp : V -> V -> comparison.
Variable legacy_defined : bool.
Variable http_get : string -> response.
(** PyYAML: [yaml.safe_load] of a file's text, and the text that
    [yaml.dump(config, f, default_flow_style=False, sort_keys=False)]
    writes. *)
Variable safe_load : string -> result yaml.
Variable dump : yaml -> dumped.
(** [str(x)] for a loaded value that is not a [str]. *)
Variable str : yaml -> string.

(** How [repo_name] appears in the f-string of line 26. *)
Definition format_value (x : yaml) : string :=
  match x with
  | YStr s => s
  | _ => str x
  end.

(** The [try] block of lines 88-115 for one [file_path]: the tree and
    the counters where the block ends, and how it ends. *)
Definition try_file (fuel : nat) (st : tally) (file_path : string)
  : tally * outcome unit :=
  match text ← open_read (disk st) file_path; safe_load text with
  | Raise e => (st, Raised e)
  | Ok (YMap config) =>
      match dict_get "image" config with
      | Some image =>
          match get_latest_tag V parse vcmp legacy_defined http_get fuel
                  (format_value image) with
          | Return (Some latest_tag) =>
              if str_truthy latest_tag then
                let current_version := dict_get "version" config in
                if differs current_version latest_tag then
                  let config' := dict_set "version" (YStr latest_tag) config in
                  match open_write (disk st) file_path with
                  | Ok opened =>
                      match dump (YMap config') with
                      | Dumped text =>
                          (Tally (write opened file_path text)
                                 (S (updated_count st)) (error_count st),
                           Return tt)
                      | DumpFailed partial e =>
                          (Tally (write opened file_path partial)
                                 (updated_count st) (error_count st),
                           Raised e)
                      end
                  | Raise e => (st, Raised e)
                  end
                else (st, Return tt)
              else (st, Return tt)
          | Return None => (st, Return tt)
          | Raised e => (st, Raised e)
          | NoFuel => (st, NoFuel)
          end
      | None => (st, Return tt)
      end
  | Ok _ => (st, Return tt)
  end.

(** The turn for a file, read off [try_file]: it depends on the file
    alone. *)
Definition turn_of (fuel : nat) (f : option file) : turn :=
  match f with
  | None => CountError
  | Some f =>
      if readable f then
        match safe_load (contents f) with
        | Raise _ => CountError
        | Ok (YMap config) =>
            match dict_get "image" config with
            | Some image =>
                match get_latest_tag V parse vcmp legacy_defined http_get fuel
                        (format_value image) with
                | Return (Some latest_tag) =>
                    if str_truthy latest_tag
                       && differs (dict_get "version" config) latest_tag
                    then if writable f
                         then match dump (YMap (dict_set "version"
                                                  (YStr latest_tag) config)) with
                              | Dumped text => Rewrite text
                              | DumpFailed partial _ => Spoil partial
                              end
                         else CountError
                    else Leave
                | Return None => Leave
                | Raised _ => CountError
                | NoFuel => Unfinished
                end
            | None => Leave
            end
        | Ok _ => Leave
        end
      else CountError
  end.

(** Lines 87-118: the [try] with its [except Exception].  [None] when the
    resolver's loop does not finish within [fuel] iterations. *)
Definition process_file (fuel : nat) (st : tally) (file_path : string)
  : option tally :=
  match try_file fuel st file_path with
  | (st', Return _) => Some st'
  | (st', Raised _) =>
      Some (Tally (disk st') (updated_count st') (S (error_count st')))
  | (_, NoFuel) => None
  end.

Fixpoint process_files (fuel : nat) (st : tally) (paths : list string)
  : option tally :=
  match paths with
  | [] => Some st
  | file_path :: rest =>
      match process_file fuel st file_path with
      | Some st' => process_files fuel st' rest
      | None => None
      end
  end.

(** The paths the two [for] loops of lines 83-86 visit, given what
    [os.walk(directory)] yields. *)
Definition config_paths (walk : list (string * list string * list string))
  : list string :=
  flat_map (fun '(root, dirs, files) =>
              map (path_join root)
                  (filter (fun file => String.eqb file "config.yaml") files))
           walk.

(** [update_config_files]: the counters it returns, with the tree it
    leaves behind. *)
Definition update_config_files (fuel : nat)
    (walk : list (string * list string * list string))
    (tree : gmap string file) : option tally :=
  process_files fuel (Tally tree 0 0) (config_paths walk).
End Updater.

(** The effect of a turn on the tree and the counters. *)
Definition apply_turn (st : tally) (file_path : string) (t : turn) : option tally :=
  match t with
  | Leave => Some st
  | CountError => Some (Tally (disk st) (updated_count st) (S (error_count st)))
  | Rewrite text =>
      match open_write (disk st) file_path with
      | Ok opened =>
          Some (Tally (write opened file_path text)
                      (S (updated_count st)) (error_count st))
      | Raise _ => Some (Tally (disk st) (updated_count st) (S (error_count st)))
      end
  | Spoil partial =>
      match open_write (disk st) file_path with
      | Ok opened =>
          Some (Tally (write opened file_path partial)
                      (updated_count st) (S (error_count st)))
      | Raise _ => Some (Tally (disk st) (updated_count st) (S (error_count st)))
      end
  | Unfinished => None
  end.

(** ** Logging and the command line *)

Inductive level : Type := DEBUG | INFO | WARNING | ERROR.

(** [logging.DEBUG], [logging.INFO], ... *)
Definition level_value (l : level) : nat :=
  match l with
  | DEBUG => 10
  | INFO => 20
  | WARNING => 30
  | ERROR => 40
  end.

(** The records that a logger set to [threshold] lets through. *)
Definition emitted (threshold : level) (records : list (level * string))
  : list (level * string) :=
  List.filter (fun r => (level_value threshold <=? level_value (fst r))%nat) records.

(** The records that line 117 writes. *)
Definition is_file_error (r : level * string) : bool :=
  match r with
  | (ERROR, message) => String.prefix "Error processing " message
  | _ => false
  end.

(** What [parser.parse_args()] comes to: the two options, or argparse
    leaving with [SystemExit]. *)
Inductive parsed_args : Type :=
  | Args (directory : string) (verbose : bool)
  | SystemExit (code : nat).

Section Logged.
Variable V : Type.
Variable parse : string -> parsed V.
Variable vcmp : V -> V -> comparison.
Variable legacy_defined : bool.
Variable http_get : string -> response.
Variable safe_load : string -> result yaml.
Variable dump : yaml -> dumped.
Variable str : yaml -> string.
(** [str(e)] for a caught exception. *)
Variable exc_text : exn -> string.
(** [argparse] and [os.walk]. *)
Variable parse_args : list string -> parsed_args.
Variable os_walk : string -> list (string * list string * list string).

(** [get_latest_tag] with the records it logs (lines 48, 51, 70, 73). *)
Definition get_latest_tag_log (fuel : nat) (repo_name : string)
  : outcome (option string) * list (level * string) :=
  match fetch_loop http_get fuel (initial repo_name) with
  | Return None =>
      (Return None,
       [(ERROR, "Error fetching tags for " +:+ repo_name +:+ ": "
                +:+ exc_text RequestException)])
  | Return (Some st) =>
      let found :=
        (DEBUG, "Found " +:+ pretty (List.length (all_tags st))
                +:+ " tags for " +:+ repo_name) in
      let latest := select_latest V parse vcmp legacy_defined (all_tags st) in
      match valid_tags V parse legacy_defined (all_tags st) with
      | Ok [] =>
          (Return latest,
           [found;
            (WARNING, "No proper semantic versions found for " +:+ repo_name
                      +:+ ", using string sorting")])
      | Ok _ => (Return latest, [found])
      | Raise e =>
          (Return latest,
           [found;
            (ERROR, "Error sorting tags for " +:+ repo_name +:+ ": "
                    +:+ exc_text e)])
      end
  | Raised e => (Raised e, [])
  | NoFuel => (NoFuel, [])
  end.

(** How [current_version] appears in an f-string. *)
Definition format_option (x : option yaml) : string :=
  match x with
  | Some v => format_value str v
  | None => "None"
  end.

(** The [try] block of lines 88-115 with the records it logs. *)
Definition try_file_log (fuel : nat) (st : tally) (file_path : string)
  : tally * outcome unit * list (level * string) :=
  match text ← open_read (disk st) file_path; safe_load text with
  | Raise e => (st, Raised e, [])
  | Ok (YMap config) =>
      match dict_get "image" config with
      | Some image =>
          let processing :=
            (INFO, "Processing " +:+ file_path +:+ " with image "
                   +:+ format_value str image) in
          match get_latest_tag_log fuel (format_value str image) with
          | (Return (Some latest_tag), records) =>
              if str_truthy latest_tag then
                let latest :=
                  (INFO, "Latest version of " +:+ format_value str image
                         +:+ " is " +:+ latest_tag) in
                let current_version := dict_get "version" config in
                if differs current_version latest_tag then
                  let updating :=
                    (INFO, "Updating " +:+ file_path +:+ " from "
                           +:+ format_option current_version +:+ " to "
                           +:+ latest_tag) in
                  let config' := dict_set "version" (YStr latest_tag) config in
                  let records' := processing :: records ++ [latest; updating] in
                  match open_write (disk st) file_path with
                  | Ok opened =>
                      match dump (YMap config') with
                      | Dumped text =>
                          (Tally (write opened file_path text)
                                 (S (updated_count st)) (error_count st),
                           Return tt, records')
                      | DumpFailed partial e =>
                          (Tally (write opened file_path partial)
                                 (updated_count st) (error_count st),
                           Raised e, records')
                      end
                  | Raise e => (st, Raised e, records')
                  end
                else
                  (st, Return tt,
                   processing :: records ++
                   [latest;
                    (INFO, file_path +:+ " already at latest version "
                           +:+ format_option current_version)])
              else
                (st, Return tt,
                 processing :: records ++
                 [(WARNING, "Could not determine latest version for "
                            +:+ format_value str image)])
          | (Return None, records) =>
              (st, Return tt,
               processing :: records ++
               [(WARNING, "Could not determine latest version for "
                          +:+ format_value str image)])
          | (Raised e, records) => (st, Raised e, processing :: records)
          | (NoFuel, records) => (st, NoFuel, processing :: records)
          end
      | None => (st, Return tt, [])
      end
  | Ok _ =>
      (st, Return tt,
       [(WARNING, "Skipping " +:+ file_path +:+ ": Not a valid YAML dictionary")])
  end.

(** Lines 87-118 with the records they log. *)
Definition process_file_log (fuel : nat) (st : tally) (file_path : string)
  : option (tally * list (level * string)) :=
  match try_file_log fuel st file_path with
  | (st', Return _, records) => Some (st', records)
  | (st', Raised e, records) =>
      Some (Tally (disk st') (updated_count st') (S (error_count st')),
            records ++ [(ERROR, "Error processing " +:+ file_path +:+ ": "
                                +:+ exc_text e)])
  | (_, NoFuel, _) => None
  end.

Fixpoint process_files_log (fuel : nat) (st : tally) (paths : list string)
  : option (tally * list (level * string)) :=
  match paths with
  | [] => Some (st, [])
  | file_path :: rest =>
      match process_file_log fuel st file_path with
      | Some (st', records) =>
          match process_files_log fuel st' rest with
          | Some (st'', records') => Some (st'', records ++ records')
          | None => None
          end
      | None => None
      end
  end.

Definition update_config_files_log (fuel : nat)
    (walk : list (string * list string * list string))
    (tree : gmap string file) : option (tally * list (level * string)) :=
  process_files_log fuel (Tally tree 0 0) (config_paths walk).

(** The last record of a run that is not interrupted (line 148). *)
Definition summary (st : tally) : level * string :=
  (INFO, "Process completed. Updated " +:+ pretty (updated_count st)
         +:+ " files with " +:+ pretty (error_count st) +:+ " errors.").

(** Lines 122-154, for a run that is not interrupted: the exit status,
    the records that reach the log and the tree left behind. *)
Definition main (fuel : nat) (argv : list string) (tree : gmap string file)
  : option (nat * list (level * string) * gmap string file) :=
  match parse_args argv with
  | SystemExit code => Some (code, [], tree)
  | Args directory verbose =>
      let threshold := if verbose then DEBUG else INFO in
      let starting :=
        (INFO, "Starting update process in directory: " +:+ directory) in
      match update_config_files_log fuel (os_walk directory) tree with
      | Some (st, records) =>
          Some (0, emitted threshold (starting :: records ++ [summary st]), disk st)
      | None => None
      end
  end.
End Logged.

(** ** Sample collaborators

    Small stand-ins for the libraries and the registry, used to run the
    script on concrete inputs. *)

(** A version library that knows dotted release numbers ([1.2.0], [v3]),
    compared as [packaging] compares release segments: component by
    component, with trailing zeros insignificant. *)
Module Dotted.
Definition version : Type := list N.

Definition digit_value (c : ascii) : N := (N_of_ascii c - 48)%N.

(** Reads [N(.N)*]; [number] is the component being read. *)
Fixpoint release (s : string) (number : option N) (seen : list N)
  : option (list N) :=
  match s with
  | EmptyString =>
      match number with
      | Some n => Some (rev (n :: seen))
      | None => None
      end
  | String c s' =>
      if isdigit c
      then release s' (Some (10 * default 0%N number + digit_value c)%N) seen
      else if Ascii.eqb c "."
      then match number with
           | Some n => release s' None (n :: seen)
           | None => None
           end
      else None
  end.

Definition parse (tag : string) : parsed version :=
  let digits :=
    match tag with
    | String "v" rest => rest
    | String "V" rest => rest
    | _ => tag
    end in
  match release digits None [] with
  | Some rel => IsVersion rel
  | None => IsLegacy
  end.

(** The same library from packaging 22 on: what is not a version is an
    [InvalidVersion]. *)
Definition parse_strict (tag : string) : parsed version :=
  match parse tag with
  | IsVersion rel => IsVersion rel
  | _ => Invalid
  end.

Fixpoint drop_zeros (l : list N) : list N :=
  match l with
  | 0%N :: l' => drop_zeros l'
  | _ => l
  end.

(** The comparison key: the release without its trailing zeros. *)
Definition cmpkey (rel : version) : list N := rev (drop_zeros (rev rel)).

Fixpoint lex (a b : list N) : comparison :=
  match a, b with
  | [], [] => Eq
  | [], _ :: _ => Lt
  | _ :: _, [] => Gt
  | x :: a', y :: b' =>
      match N.compare x y with
      | Eq => lex a' b'
      | c => c
      end
  end.

Definition vcmp (a b : version) : comparison := lex (cmpkey a) (cmpkey b).
End Dotted.

(** The URL of the first request for [repo]. *)
Definition endpoint (repo : string) : string :=
  "https://hub.docker.com/v2/repositories/" +:+ repo +:+ "/tags?page_size=20".

(** A registry with a few repositories. *)
Definition hub (url : string) : response :=
  if String.eqb url (endpoint "x/y") then
    Json (Dict (ResultsList [Named "latest"; Named "1.0.0"; Named "1.2.0";
                             Named "1.2.0-alpine"]) None)
  else if String.eqb url (endpoint "lib/ties") then
    Json (Dict (ResultsList [Named "1.0"; Named "stable"; Named "1.0.0";
                             Named "0.9"]) None)
  else if String.eqb url (endpoint "lib/nightly") then
    Json (Dict (ResultsList [Named "build-10"; Named "build-9"; Named "edge"])
               None)
  else if String.eqb url (endpoint "lib/sparse") then
    Json (Dict (ResultsList [Named "latest"; Named "2.0"])
               (Some (endpoint "lib/sparse" +:+ "&page=2")))
  else if String.eqb url (endpoint "lib/sparse" +:+ "&page=2") then
    Json (Dict (ResultsList [Named "stable"; Named "2.1"]) None)
  else if String.eqb url (endpoint "lib/words") then
    Json (Dict (ResultsList [Named "latest"; Named "stable"]) None)
  else if String.eqb url (endpoint "lib/array") then
    Json NotDict
  else if String.eqb url (endpoint "lib/null") then
    Json (Dict ResultsNull None)
  else if String.eqb url (endpoint "lib/three") then
    Json (Dict (ResultsList [Named "1.0"; Named "1.0.0"; Named "2.0"]) None)
  else if String.eqb url (endpoint "lib/numbers") then
    Json (Dict (ResultsList [Named "9"; Named "10"]) None)
  else if String.eqb url (endpoint "lib/builds") then
    Json (Dict (ResultsList [Named "build-9"; Named "build-10"]) None)
  else Failed.

(** A registry whose every page carries one tag without a digit and a
    pointer back to the page itself. *)
Definition cyclic (url : string) : response :=
  Json (Dict (ResultsList [Named "latest"]) (Some url)).

(** A registry whose repository [repo] has [S n] pages of tags without
    digits: the [k]-th page is at the first URL followed by [k] characters,
    and all pages but the last point to the next one. *)
Definition paged (repo : string) (n : nat) (url : string) : response :=
  if (String.length url <? String.length (endpoint repo) + n)%nat
  then Json (Dict (ResultsList [Named "latest"; Named "edge"]) (Some (url +:+ "+")))
  else Json (Dict (ResultsList [Named "latest"; Named "edge"]) None).

(** A registry whose every page lists one version and points on. *)
Definition steady (url : string) : response :=
  Json (Dict (ResultsList [Named "latest"; Named "1.0"]) (Some (url +:+ "+"))).

(** A registry whose every page lists five versions and points on. *)
Definition busy (url : string) : response :=
  Json (Dict (ResultsList [Named "latest"; Named "3.0"; Named "2.2"; Named "2.1";
                           Named "2.0"; Named "1.9"])
             (Some (url +:+ "&page=2"))).

(** A YAML library for block mappings of plain words, one [key: value]
    per line. *)
Module Flat.
Definition newline : ascii := "010"%char.

Fixpoint split_lines (text : string) : list string :=
  match text with
  | EmptyString => []
  | String c text' =>
      if Ascii.eqb c newline then "" :: split_lines text'
      else match split_lines text' with
           | [] => [String c ""]
           | line :: rest => String c line :: rest
           end
  end.

Fixpoint split_pair (line : string) : option (string * string) :=
  match line with
  | EmptyString => None
  | String c line' =>
      match Ascii.eqb c ":", line' with
      | true, String " " value => Some ("", value)
      | _, _ =>
          match split_pair line' with
          | Some (key, value) => Some (String c key, value)
          | None => None
          end
      end
  end.

Fixpoint load_items (lines : list string) : result (list (yaml * yaml)) :=
  match lines with
  | [] => Ok []
  | line :: rest =>
      match split_pair line with
      | Some (key, value) =>
          items ← load_items rest; Ok ((YStr key, YStr value) :: items)
      | None => Raise YAMLError
      end
  end.

Definition safe_load (text : string) : result yaml :=
  match filter (fun line => str_truthy line) (split_lines text) with
  | [] => Ok YNull
  | lines => items ← load_items lines; Ok (YMap items)
  end.

Definition scalar (x : yaml) : string :=
  match x with
  | YStr s => s
  | YFloat text => text
  | YNull => "null"
  | YBool true => "true"
  | YBool false => "false"
  | _ => ""
  end.

Definition emit (x : yaml) : string :=
  match x with
  | YMap items =>
      fold_right
        (fun '(key, value) text =>
           scalar key +:+ ": " +:+ scalar value +:+ String newline text)
        "" items
  | _ => scalar x +:+ String newline ""
  end.

Definition dump (x : yaml) : dumped := Dumped (emit x).

Definition str (x : yaml) : string :=
  match x with
  | YNull => "None"
  | YBool true => "True"
  | YBool false => "False"
  | _ => scalar x
  end.

(** [lines l] is the text whose lines are [l]. *)
Definition text_of (lines : list string) : string :=
  fold_right (fun line text => line +:+ String newline text) "" lines.
End Flat.

(** A tree with a few add-ons. *)
Definition tree : gmap string file :=
  list_to_map
    [ ("./app/config.yaml",
       File (Flat.text_of ["name: app"; "image: x/y"; "version: 1.0.0"]) true true);
      ("./current/config.yaml",
       File (Flat.text_of ["image: x/y"; "version: 1.2.0"]) true true);
      ("./fresh/config.yaml",
       File (Flat.text_of ["image: lib/sparse"]) true true);
      ("./locked/config.yaml",
       File (Flat.text_of ["image: x/y"; "version: 1.0.0"]) true false);
      ("./secret/config.yaml",
       File (Flat.text_of ["image: x/y"; "version: 1.0.0"]) false true);
      ("./local/config.yaml",
       File (Flat.text_of ["name: local"; "version: 0.1.0"]) true true);
      ("./empty/config.yaml", File "" true true);
      ("./broken/config.yaml", File (Flat.text_of ["image: x/y"; "version"]) true true);
      ("./offline/config.yaml",
       File (Flat.text_of ["image: lib/gone"; "version: 3.1.0"]) true true);
      ("./array/config.yaml",
       File (Flat.text_of ["image: lib/array"; "version: 3.1.0"]) true true) ].

(** What [os.walk(".")] yields on it. *)
Definition tree_walk : list (string * list string * list string) :=
  [ (".", ["app"; "current"; "fresh"; "locked"; "secret"; "local"; "empty";
           "broken"; "offline"; "array"], ["README.md"]);
    ("./app", [], ["config.yaml"; "Dockerfile"]);
    ("./current", [], ["config.yaml"]);
    ("./fresh", [], ["config.yaml"]);
    ("./locked", [], ["config.yaml"]);
    ("./secret", [], ["config.yaml"]);
    ("./local", [], ["config.yaml"]);
    ("./empty", [], ["config.yaml"]);
    ("./broken", [], ["config.yaml"]);
    ("./offline", [], ["config.yaml"]);
    ("./array", [], ["config.yaml"]) ].

(** The command lines of the examples. *)
Definition sample_parse_args (argv : list string) : parsed_args :=
  match argv with
  | [] => Args "." false
  | ["-v"] => Args "." true
  | ["-d"; directory] => Args directory false
  | ["-d"; directory; "-v"] => Args directory true
  | _ => SystemExit 2
  end.

Definition sample_os_walk (directory : string)
  : list (string * list string * list string) :=
  if String.eqb directory "." then tree_walk else [].

Definition sample_exc_text (e : exn) : string :=
  match e with
  | RequestException => "404 Client Error"
  | AttributeError => "'list' object has no attribute 'get'"
  | KeyError => "'name'"
  | TypeError => "'NoneType' object is not iterable"
  | OSError => "[Errno 13] Permission denied"
  | YAMLError => "could not find expected ':'"
  end.

(** A [yaml.dump] that opens on a device without space left: nothing is
    written. *)
Definition no_space (x : yaml) : dumped := DumpFailed "" OSError.

(** The samples below run the script with the version library as it was
    before packaging 22; the ones marked [strict] with the library as it
    is from packaging 22 on. *)
Definition sample_main (fuel : nat) (argv : list string)
  : option (nat * list (level * string) * gmap string file) :=
  main Dotted.version Dotted.parse Dotted.vcmp true hub
       Flat.safe_load Flat.dump Flat.str sample_exc_text
       sample_parse_args sample_os_walk fuel argv tree.

Definition sample_get_latest_tag : nat -> string -> outcome (option string) :=
  get_latest_tag Dotted.version Dotted.parse Dotted.vcmp true hub.

Definition strict_get_latest_tag : nat -> string -> outcome (option string) :=
  get_latest_tag Dotted.version Dotted.parse_strict Dotted.vcmp false hub.

Definition sample_process_file : nat -> tally -> string -> option tally :=
  process_file Dotted.version Dotted.parse Dotted.vcmp true hub
               Flat.safe_load Flat.dump Flat.str.

Definition sample_update_config_files (fuel : nat)
  : option tally :=
  update_config_files Dotted.version Dotted.parse Dotted.vcmp true hub
                      Flat.safe_load Flat.dump Flat.str fuel tree_walk tree.

(** * Properties *)

(** ** Comparison functions *)

(** [x < y] read off a three-way comparison. *)
Definition lt_of {A : Type} (cmp : A -> A -> comparison) (x y : A) : bool :=
  match cmp x y with
  | Lt => true
  | _ => false
  end.

(** The laws of a three-way comparison of a total preorder. *)
Record cmp_laws {A : Type} (cmp : A -> A -> comparison) : Prop := CmpLaws {
  cmp_antisym : forall x y, cmp y x = CompOpp (cmp x y);
  cmp_trans : forall c x y z, cmp x y = c -> cmp y z = c -> cmp x z = c
}.

(** Tuples compare by their first components, then by their second. *)
Definition lex_cmp {A B : Type} (cmpA : A -> A -> comparison)
    (cmpB : B -> B -> comparison) (a b : A * B) : comparison :=
  match cmpA (fst a) (fst b) with
  | Eq => cmpB (snd a) (snd b)
  | c => c
  end.

Section CmpFacts.
Context {A : Type} (cmp : A -> A -> comparison) (laws : cmp_laws cmp).

Lemma cmp_refl x : cmp x x = Eq.
Proof.
  pose proof (cmp_antisym cmp laws x x) as H.
  destruct (cmp x x); simpl in H; congruence.
Qed.

Lemma cmp_sym_eq x y : cmp x y = Eq -> cmp y x = Eq.
Proof. intros H. rewrite (cmp_antisym cmp laws x y), H. reflexivity. Qed.

Lemma cmp_flip_lt x y : cmp x y = Lt <-> cmp y x = Gt.
Proof.
  rewrite (cmp_antisym cmp laws x y).
  destruct (cmp x y); simpl; split; congruence.
Qed.

Lemma cmp_eq_l x y z : cmp x y = Eq -> cmp x z = cmp y z.
Proof.
  intros Hxy.
  destruct (cmp y z) eqn:Hyz.
  - eapply cmp_trans; eauto.
  - destruct (cmp x z) eqn:Hxz; [| reflexivity |].
    + apply cmp_sym_eq in Hxy.
      pose proof (cmp_trans cmp laws Eq y x z Hxy Hxz). congruence.
    + apply cmp_flip_lt in Hxz.
      pose proof (cmp_trans cmp laws Lt y z x Hyz Hxz) as H.
      apply cmp_sym_eq in Hxy. congruence.
  - destruct (cmp x z) eqn:Hxz; [| | reflexivity].
    + apply cmp_sym_eq in Hxy.
      pose proof (cmp_trans cmp laws Eq y x z Hxy Hxz). congruence.
    + apply cmp_flip_lt in Hyz.
      pose proof (cmp_trans cmp laws Lt x z y Hxz Hyz) as H. congruence.
Qed.

Lemma cmp_eq_r x y z : cmp x y = Eq -> cmp z x = cmp z y.
Proof.
  intros Hxy.
  rewrite (cmp_antisym cmp laws x z), (cmp_antisym cmp laws y z).
  f_equal. apply cmp_eq_l. exact Hxy.
Qed.

(** [x <= y <= z] gives [x <= z]. *)
Lemma cmp_le_trans x y z : cmp x y <> Gt -> cmp y z <> Gt -> cmp x z <> Gt.
Proof.
  intros Hxy Hyz Hxz.
  destruct (cmp x y) eqn:Exy; [| | congruence].
  - rewrite (cmp_eq_l x y z Exy) in Hxz. congruence.
  - destruct (cmp y z) eqn:Eyz; [| | congruence].
    + rewrite <- (cmp_eq_r y z x Eyz) in Hxz. congruence.
    + pose proof (cmp_trans cmp laws Lt x y z Exy Eyz). congruence.
Qed.

Lemma lt_of_false x y : lt_of cmp x y = false <-> cmp y x <> Gt.
Proof.
  unfold lt_of. rewrite (cmp_antisym cmp laws x y).
  destruct (cmp x y); simpl; split; congruence.
Qed.

Lemma lt_of_true x y : lt_of cmp x y = true <-> cmp x y = Lt.
Proof. unfold lt_of. destruct (cmp x y); split; congruence. Qed.
End CmpFacts.

Lemma lex_cmp_laws {A B : Type} (cmpA : A -> A -> comparison)
    (cmpB : B -> B -> comparison) :
  cmp_laws cmpA -> cmp_laws cmpB -> cmp_laws (lex_cmp cmpA cmpB).
Proof.
  intros HA HB. split.
  - intros [a1 b1] [a2 b2]. unfold lex_cmp; simpl.
    rewrite (cmp_antisym cmpA HA a1 a2), (cmp_antisym cmpB HB b1 b2).
    destruct (cmpA a1 a2); reflexivity.
  - intros c [a1 b1] [a2 b2] [a3 b3]. unfold lex_cmp; simpl.
    destruct (cmpA a1 a2) eqn:E12.
    + rewrite (cmp_eq_l cmpA HA a1 a2 a3 E12).
      destruct (cmpA a2 a3); [apply (cmp_trans cmpB HB) | congruence | congruence].
    + destruct (cmpA a2 a3) eqn:E23.
      * rewrite <- (cmp_eq_r cmpA HA a2 a3 a1 E23), E12. congruence.
      * rewrite (cmp_trans cmpA HA Lt a1 a2 a3 E12 E23). congruence.
      * congruence.
    + destruct (cmpA a2 a3) eqn:E23.
      * rewrite <- (cmp_eq_r cmpA HA a2 a3 a1 E23), E12. congruence.
      * congruence.
      * rewrite (cmp_trans cmpA HA Gt a1 a2 a3 E12 E23). congruence.
Qed.

(** Comparing through a key keeps the laws. *)
Lemma key_cmp_laws {A K : Type} (key : A -> K) (cmp : K -> K -> comparison) :
  cmp_laws cmp -> cmp_laws (fun x y => cmp (key x) (key y)).
Proof.
  intros H. split.
  - intros x y. apply (cmp_antisym cmp H).
  - intros c x y z. apply (cmp_trans cmp H).
Qed.

Lemma N_compare_laws : cmp_laws N.compare.
Proof.
  split.
  - intros x y. apply N.compare_antisym.
  - intros c x y z. destruct c.
    + rewrite !N.compare_eq_iff. congruence.
    + rewrite !N.compare_lt_iff. lia.
    + rewrite !N.compare_gt_iff. lia.
Qed.

Lemma ascii_compare_laws : cmp_laws Ascii.compare.
Proof. exact (key_cmp_laws N_of_ascii N.compare N_compare_laws). Qed.

Lemma string_compare_laws : cmp_laws String.compare.
Proof.
  split.
  - intros x y. apply String.compare_antisym.
  - intros c x. induction x as [| a x IH]; intros [| b y] [| d z]; simpl;
      try congruence.
    destruct (Ascii.compare a b) eqn:Eab.
    + rewrite (cmp_eq_l _ ascii_compare_laws a b d Eab).
      destruct (Ascii.compare b d); [apply IH | congruence | congruence].
    + destruct (Ascii.compare b d) eqn:Ebd.
      * rewrite <- (cmp_eq_r _ ascii_compare_laws b d a Ebd), Eab. congruence.
      * rewrite (cmp_trans _ ascii_compare_laws Lt a b d Eab Ebd). congruence.
      * congruence.
    + destruct (Ascii.compare b d) eqn:Ebd.
      * rewrite <- (cmp_eq_r _ ascii_compare_laws b d a Ebd), Eab. congruence.
      * congruence.
      * rewrite (cmp_trans _ ascii_compare_laws Gt a b d Eab Ebd). congruence.
Qed.

Lemma str_lt_is_lt_of : str_lt = lt_of String.compare.
Proof. reflexivity. Qed.

(** [s1 <= s2] and [s2 <= s1] only for the same string. *)
Lemma str_lt_antisym s1 s2 :
  str_lt s1 s2 = false -> str_lt s2 s1 = false -> s1 = s2.
Proof.
  rewrite str_lt_is_lt_of. unfold lt_of.
  rewrite (String.compare_antisym s1 s2).
  destruct (String.compare s2 s1) eqn:E; simpl; try congruence.
  intros _ _. symmetry. apply String.compare_eq_iff. exact E.
Qed.

(** ** The first element of a descending sort *)

Section SortFacts.
Context {A : Type} (cmp : A -> A -> comparison) (laws : cmp_laws cmp).
Context (lt : A -> A -> bool) (lt_spec : forall x y, lt x y = lt_of cmp x y).

Lemma first_sorted_reverse_cons x l :
  first_sorted_reverse lt (x :: l) =
  Some match first_sorted_reverse lt l with
       | Some y => if lt x y then y else x
       | None => x
       end.
Proof.
  unfold first_sorted_reverse, sorted_reverse. simpl.
  destruct (fold_right (insert_desc lt) [] l) as [| y l']; simpl.
  - reflexivity.
  - destruct (lt x y); reflexivity.
Qed.

Lemma first_sorted_reverse_some x l :
  exists m, first_sorted_reverse lt (x :: l) = Some m.
Proof. rewrite first_sorted_reverse_cons. eauto. Qed.

Lemma first_sorted_reverse_In l m :
  first_sorted_reverse lt l = Some m -> In m l.
Proof.
  revert m. induction l as [| x l IH]; intros m.
  - discriminate.
  - rewrite first_sorted_reverse_cons.
    destruct (first_sorted_reverse lt l) as [y |].
    + destruct (lt x y); intros [= <-]; simpl; auto.
    + intros [= <-]. simpl. auto.
Qed.

(** No element is above the first one. *)
Lemma first_sorted_reverse_max l m :
  first_sorted_reverse lt l = Some m ->
  forall x, In x l -> cmp x m <> Gt.
Proof using laws lt_spec.
  revert m. induction l as [| x l IH]; intros m Hm z Hz.
  - destruct Hz.
  - rewrite first_sorted_reverse_cons in Hm.
    destruct (first_sorted_reverse lt l) as [y |] eqn:Hy.
    + specialize (IH y eq_refl).
      destruct (lt x y) eqn:Hxy; injection Hm as <-.
      * destruct Hz as [<- | Hz]; [| auto].
        rewrite lt_spec in Hxy. apply (lt_of_true cmp) in Hxy. congruence.
      * rewrite lt_spec in Hxy. apply (lt_of_false cmp laws) in Hxy.
        destruct Hz as [<- | Hz].
        -- rewrite (cmp_refl cmp laws). discriminate.
        -- apply (cmp_le_trans cmp laws z y x); auto.
    + injection Hm as <-.
      destruct l as [| y l'].
      * destruct Hz as [<- | []]. rewrite (cmp_refl cmp laws). discriminate.
      * destruct (first_sorted_reverse_some y l') as [m Hm]. congruence.
Qed.

(** The first element is the same, up to [Eq], for every order of the
    input. *)
Lemma first_sorted_reverse_perm l l' m :
  Permutation l l' ->
  first_sorted_reverse lt l = Some m ->
  exists m', first_sorted_reverse lt l' = Some m' /\ In m' l' /\ cmp m m' = Eq.
Proof using laws lt_spec.
  intros Hperm Hm.
  pose proof (first_sorted_reverse_In l m Hm) as Hin.
  destruct l' as [| x l'].
  - apply Permutation_sym, Permutation_nil in Hperm. subst. destruct Hin.
  - destruct (first_sorted_reverse_some x l') as [m' Hm'].
    exists m'. split; [exact Hm' |].
    pose proof (first_sorted_reverse_In _ m' Hm') as Hin'.
    split; [exact Hin' |].
    pose proof (first_sorted_reverse_max l m Hm m'
                  (Permutation_in _ (Permutation_sym Hperm) Hin')) as H1.
    pose proof (first_sorted_reverse_max _ m' Hm' m
                  (Permutation_in _ Hperm Hin)) as H2.
    rewrite (cmp_antisym cmp laws m m') in H1.
    destruct (cmp m m'); simpl in H1; congruence.
Qed.
End SortFacts.

(** ** The tag resolver *)

Lemma any_isdigit_truthy s : any_isdigit s = true -> str_truthy s = true.
Proof. destruct s; simpl; congruence. Qed.

Lemma valid_tags_with_legacy (V : Type) (parse : string -> parsed V) tags :
  valid_tags V parse true tags = Ok (version_pairs V parse tags).
Proof.
  induction tags as [| tag rest IH]; simpl; [reflexivity |].
  destruct (parse tag); simpl; rewrite IH; reflexivity.
Qed.

Lemma valid_tags_without_legacy (V : Type) (parse : string -> parsed V) tags :
  valid_tags V parse false tags =
  if existsb (parse_returns V parse) tags then Raise AttributeError else Ok [].
Proof.
  induction tags as [| tag rest IH]; simpl; [reflexivity |].
  unfold parse_returns at 1. destruct (parse tag); simpl; try reflexivity.
  exact IH.
Qed.

Section SelectFacts.
Variable V : Type.
Variable parse : string -> parsed V.
Variable vcmp : V -> V -> comparison.
Variable legacy_defined : bool.
Hypothesis vcmp_laws : cmp_laws vcmp.

Abbreviation valid_tags := (valid_tags V parse legacy_defined).
Abbreviation version_pairs := (version_pairs V parse).
Abbreviation parse_returns := (parse_returns V parse).
Abbreviation pair_lt := (pair_lt V vcmp).
Abbreviation select_latest := (select_latest V parse vcmp legacy_defined).
Abbreviation pair_cmp := (lex_cmp vcmp String.compare).

Lemma pair_lt_spec a b : pair_lt a b = lt_of pair_cmp a b.
Proof.
  unfold pair_lt, lt_of, lex_cmp. destruct (vcmp a.1 b.1); reflexivity.
Qed.

Lemma pair_cmp_laws : cmp_laws pair_cmp.
Proof using vcmp_laws.
  apply lex_cmp_laws; [exact vcmp_laws | exact string_compare_laws].
Qed.

Lemma version_pairs_In tags v t :
  In (v, t) (version_pairs tags) <-> In t tags /\ parse t = IsVersion v.
Proof.
  induction tags as [| tag rest IH]; simpl.
  - tauto.
  - destruct (parse tag) eqn:E; simpl; rewrite IH; split.
    + intros [[= <- <-] | [H1 H2]]; auto.
    + intros [[<- | H1] H2]; [left; congruence | auto].
    + intros [H1 H2]; auto.
    + intros [[<- | H1] H2]; [congruence | auto].
    + intros [H1 H2]; auto.
    + intros [[<- | H1] H2]; [congruence | auto].
Qed.

Lemma version_pairs_perm tags tags' :
  Permutation tags tags' -> Permutation (version_pairs tags) (version_pairs tags').
Proof.
  induction 1 as [| x l l' _ IH | x y l | l l' l'' _ IH1 _ IH2]; simpl.
  - constructor.
  - destruct (parse x); auto.
  - destruct (parse x), (parse y); auto using Permutation_refl, perm_swap.
  - etransitivity; eauto.
Qed.

Lemma parse_returns_perm tags tags' :
  Permutation tags tags' ->
  existsb parse_returns tags = existsb parse_returns tags'.
Proof.
  induction 1 as [| x l l' _ IH | x y l | l l' l'' _ IH1 _ IH2]; simpl.
  - reflexivity.
  - rewrite IH. reflexivity.
  - destruct (parse_returns x), (parse_returns y); reflexivity.
  - congruence.
Qed.

(** [version.parse] raises on every candidate. *)
Lemma parse_returns_nowhere tags :
  existsb parse_returns tags = false <-> forall t, In t tags -> parse t = Invalid.
Proof.
  induction tags as [| tag rest IH]; simpl.
  - split; [intros _ t [] | reflexivity].
  - rewrite orb_false_iff, IH. unfold parse_returns. split.
    + intros [H1 H2] t [<- | Ht]; [| auto].
      destruct (parse tag); [discriminate | discriminate | reflexivity].
    + intros H. split; [| auto].
      rewrite (H tag (or_introl eq_refl)). reflexivity.
Qed.

Lemma parse_returns_somewhere tags t :
  In t tags -> parse t <> Invalid -> existsb parse_returns tags = true.
Proof.
  intros Hin Hp.
  destruct (existsb parse_returns tags) eqn:E; [reflexivity |].
  rewrite parse_returns_nowhere in E. elim Hp. auto.
Qed.

(** Where [version.LegacyVersion] exists, the loop of lines 57-63 keeps
    the candidates that parse as a [Version]. *)
Lemma valid_tags_defined tags :
  legacy_defined = true -> valid_tags tags = Ok (version_pairs tags).
Proof.
  intros ->. apply valid_tags_with_legacy.
Qed.

(** Where it does not, the first candidate for which [version.parse]
    returns ends the loop with an [AttributeError]. *)
Lemma valid_tags_missing tags :
  legacy_defined = false ->
  valid_tags tags =
  if existsb parse_returns tags then Raise AttributeError else Ok [].
Proof.
  intros ->. apply valid_tags_without_legacy.
Qed.

Lemma version_pairs_nowhere tags :
  existsb parse_returns tags = false -> version_pairs tags = [].
Proof.
  rewrite parse_returns_nowhere. intros H.
  induction tags as [| tag rest IH]; simpl; [reflexivity |].
  rewrite (H tag (or_introl eq_refl)). apply IH. intros t Ht. apply H. right. exact Ht.
Qed.

(** The result of lines 54-74 in terms of the candidates that parse. *)
Lemma select_latest_eq tags :
  select_latest tags =
  if legacy_defined || negb (existsb parse_returns tags) then
    match version_pairs tags with
    | [] => first_sorted_reverse str_lt tags
    | valid => option_map snd (first_sorted_reverse pair_lt valid)
    end
  else None.
Proof.
  unfold select_latest. destruct legacy_defined; simpl.
  - rewrite valid_tags_with_legacy.
    destruct (version_pairs tags); reflexivity.
  - rewrite valid_tags_without_legacy.
    destruct (existsb parse_returns tags) eqn:E; simpl; [reflexivity |].
    rewrite (version_pairs_nowhere _ E). reflexivity.
Qed.

Lemma select_latest_valid tags p valid :
  legacy_defined = true ->
  version_pairs tags = p :: valid ->
  select_latest tags = option_map snd (first_sorted_reverse pair_lt (p :: valid)).
Proof. intros Hdef E. rewrite select_latest_eq, Hdef, E. reflexivity. Qed.

Lemma select_latest_no_valid tags :
  legacy_defined = true \/ existsb parse_returns tags = false ->
  version_pairs tags = [] ->
  select_latest tags = first_sorted_reverse str_lt tags.
Proof.
  intros H E. rewrite select_latest_eq, E.
  destruct H as [-> | ->]; [reflexivity |]. rewrite orb_true_r. reflexivity.
Qed.

(** Without [version.LegacyVersion], a candidate for which
    [version.parse] returns makes the handler of lines 72-74 return
    [None]. *)
Lemma select_latest_missing tags t :
  legacy_defined = false -> In t tags -> parse t <> Invalid ->
  select_latest tags = None.
Proof.
  intros Hdef Hin Hp.
  rewrite select_latest_eq, Hdef, (parse_returns_somewhere _ _ Hin Hp).
  reflexivity.
Qed.

(** With a parseable candidate, the result is the tag of a greatest
    [(version, tag)] pair. *)
Lemma select_latest_semantic tags t0 v0 :
  legacy_defined = true ->
  In t0 tags -> parse t0 = IsVersion v0 ->
  exists t v,
    select_latest tags = Some t /\ In t tags /\ parse t = IsVersion v /\
    forall t' v', In t' tags -> parse t' = IsVersion v' ->
                  pair_cmp (v', t') (v, t) <> Gt.
Proof using vcmp_laws.
  intros Hdef Hin Hparse.
  assert (Hvalid : In (v0, t0) (version_pairs tags))
    by (apply version_pairs_In; auto).
  destruct (version_pairs tags) as [| p valid] eqn:E; [destruct Hvalid |].
  rewrite (select_latest_valid _ _ _ Hdef E).
  destruct (first_sorted_reverse_some pair_lt p valid) as [[v t] Hm].
  exists t, v. rewrite Hm. simpl.
  pose proof (first_sorted_reverse_In pair_lt _ _ Hm) as Hin'.
  rewrite <- E in Hin', Hm. apply version_pairs_In in Hin'.
  destruct Hin' as [H1 H2].
  repeat split; auto.
  intros t' v' Ht' Hv'.
  apply (first_sorted_reverse_max pair_cmp pair_cmp_laws pair_lt pair_lt_spec
           _ _ Hm).
  apply version_pairs_In. auto.
Qed.

(** Without one, it is a greatest candidate in string order. *)
Lemma select_latest_fallback tags :
  tags <> [] ->
  (forall t, In t tags ->
             parse t = Invalid \/ parse t = IsLegacy /\ legacy_defined = true) ->
  exists t,
    select_latest tags = Some t /\ In t tags /\
    forall t', In t' tags -> str_lt t t' = false.
Proof.
  intros Hne Hnone.
  assert (E : version_pairs tags = []).
  { destruct (version_pairs tags) as [| [v t] l] eqn:E; [reflexivity |].
    assert (H : In (v, t) (version_pairs tags)) by (rewrite E; left; reflexivity).
    apply version_pairs_In in H. destruct H as [H1 H2].
    destruct (Hnone t H1) as [H | [H _]]; congruence. }
  assert (Hsort : legacy_defined = true \/ existsb parse_returns tags = false).
  { destruct legacy_defined; [left; reflexivity | right].
    apply parse_returns_nowhere. intros t Ht.
    destruct (Hnone t Ht) as [H | [_ H]]; [exact H | discriminate]. }
  rewrite (select_latest_no_valid _ Hsort E).
  destruct tags as [| x l]; [congruence |].
  destruct (first_sorted_reverse_some str_lt x l) as [t Ht].
  exists t. split; [exact Ht |].
  split; [exact (first_sorted_reverse_In _ _ _ Ht) |].
  intros t' Ht'.
  apply (lt_of_false String.compare string_compare_laws).
  exact (first_sorted_reverse_max String.compare string_compare_laws str_lt
           (fun _ _ => eq_refl) _ _ Ht t' Ht').
Qed.

Lemma select_latest_In tags t : select_latest tags = Some t -> In t tags.
Proof.
  rewrite select_latest_eq.
  destruct (legacy_defined || negb (existsb parse_returns tags));
    [| discriminate].
  destruct (version_pairs tags) as [| p valid] eqn:E.
  - apply first_sorted_reverse_In.
  - destruct (first_sorted_reverse pair_lt (p :: valid)) as [[v t'] |] eqn:Hm;
      simpl; [| discriminate].
    intros [= <-].
    apply first_sorted_reverse_In in Hm. rewrite <- E in Hm.
    apply version_pairs_In in Hm. tauto.
Qed.

Lemma select_latest_nil : select_latest [] = None.
Proof. rewrite select_latest_eq. simpl. rewrite orb_true_r. reflexivity. Qed.

(** [None] comes from an empty list of candidates, or from the handler
    of lines 72-74. *)
Lemma select_latest_None tags :
  select_latest tags = None ->
  tags = [] \/
  legacy_defined = false /\ exists t, In t tags /\ parse t <> Invalid.
Proof.
  rewrite select_latest_eq.
  destruct legacy_defined; simpl.
  - destruct (version_pairs tags) as [| p valid] eqn:E.
    + destruct tags as [| x l]; [auto |].
      destruct (first_sorted_reverse_some str_lt x l) as [m ->]. discriminate.
    + destruct (first_sorted_reverse_some pair_lt p valid) as [m ->].
      discriminate.
  - destruct (existsb parse_returns tags) eqn:E; simpl.
    + intros _. right. split; [reflexivity |].
      apply existsb_exists in E. destruct E as (t & Ht & Hp).
      exists t. split; [exact Ht |].
      unfold parse_returns in Hp. intros H. rewrite H in Hp.
      discriminate.
    + rewrite (version_pairs_nowhere _ E).
      destruct tags as [| x l]; [auto |].
      destruct (first_sorted_reverse_some str_lt x l) as [m ->]. discriminate.
Qed.

(** The result does not depend on the order of the candidates. *)
Lemma select_latest_perm tags tags' :
  Permutation tags tags' -> select_latest tags' = select_latest tags.
Proof using vcmp_laws.
  intros Hperm.
  pose proof (version_pairs_perm _ _ Hperm) as Hvperm.
  rewrite !select_latest_eq, (parse_returns_perm _ _ Hperm).
  destruct (legacy_defined || negb (existsb parse_returns tags'));
    [| reflexivity].
  destruct (version_pairs tags) as [| p valid] eqn:E.
  - apply Permutation_nil in Hvperm. rewrite Hvperm.
    destruct tags as [| x l].
    + apply Permutation_nil in Hperm. subst. reflexivity.
    + destruct (first_sorted_reverse_some str_lt x l) as [m Hm].
      destruct (first_sorted_reverse_perm String.compare string_compare_laws
                  str_lt (fun _ _ => eq_refl) _ _ _ Hperm Hm)
        as (m' & Hm' & _ & Heq).
      apply String.compare_eq_iff in Heq. congruence.
  - destruct (version_pairs tags') as [| p' valid'] eqn:E'.
    + apply Permutation_sym, Permutation_nil in Hvperm. discriminate.
    + destruct (first_sorted_reverse_some pair_lt p valid) as [[v t] Hm].
      destruct (first_sorted_reverse_perm pair_cmp pair_cmp_laws pair_lt
                  pair_lt_spec _ _ _ Hvperm Hm)
        as ([v' t'] & Hm' & _ & Heq).
      rewrite Hm, Hm'. simpl.
      unfold lex_cmp in Heq. simpl in Heq.
      destruct (vcmp v v'); try discriminate.
      apply String.compare_eq_iff in Heq. congruence.
Qed.
End SelectFacts.

Section FetchFacts.
Variable V : Type.
Variable parse : string -> parsed V.
Variable vcmp : V -> V -> comparison.
Variable legacy_defined : bool.
Variable http_get : string -> response.

Abbreviation try_page := (try_page http_get).
Abbreviation fetch_loop := (fetch_loop http_get).
Abbreviation after_pages := (after_pages http_get).
Abbreviation get_latest_tag := (get_latest_tag V parse vcmp legacy_defined http_get).
Abbreviation next_url st := (default "" (tags_url st)).

Lemma fetch_loop_exit fuel st :
  loop_guard st = false -> fetch_loop fuel st = Return (Some st).
Proof. intros G. destruct fuel; simpl; rewrite G; reflexivity. Qed.

Lemma fetch_loop_turn fuel st :
  loop_guard st = true ->
  fetch_loop (S fuel) st =
  match try_page st (next_url st) with
  | Ok st' => fetch_loop fuel st'
  | Raise RequestException => Return None
  | Raise e => Raised e
  end.
Proof. intros G. simpl. rewrite G. reflexivity. Qed.

Lemma fetch_loop_no_fuel st :
  loop_guard st = true -> fetch_loop 0 st = NoFuel.
Proof. intros G. simpl. rewrite G. reflexivity. Qed.

Lemma digit_names_digits results names :
  digit_names results = Ok names -> Forall has_digit names.
Proof.
  revert names. induction results as [| tag rest IH]; simpl; intros names.
  - intros [= <-]. constructor.
  - destruct (get_name tag) as [n |]; simpl; [| discriminate].
    destruct (digit_names rest) as [ns |]; simpl; [| discriminate].
    specialize (IH ns eq_refl).
    destruct (any_isdigit n) eqn:E; intros [= <-]; auto.
Qed.

(** What one turn of the loop does to the locals. *)
Lemma try_page_Ok st url st' :
  try_page st url = Ok st' ->
  exists results names next,
    http_get url = Json (Dict results next) /\
    comprehension results = Ok names /\
    st' = Locals next (all_tags st ++ names) (S (current_page st))
            (if (List.length (all_tags st ++ names) <? 5)%nat && opt_truthy next
             then S (max_pages st) else max_pages st).
Proof.
  unfold try_page.
  destruct (http_get url) as [| [| results next]]; simpl; try discriminate.
  destruct results as [| | l]; simpl; try discriminate.
  - intros [= <-]. exists ResultsAbsent, [], next. auto.
  - destruct (digit_names l) as [names |] eqn:E; simpl; [| discriminate].
    intros [= <-]. exists (ResultsList l), names, next. auto.
Qed.

Lemma comprehension_digits results names :
  comprehension results = Ok names -> Forall has_digit names.
Proof.
  destruct results; simpl; try discriminate.
  - intros [= <-]. constructor.
  - apply digit_names_digits.
Qed.

Lemma try_page_digits st url st' :
  try_page st url = Ok st' ->
  Forall has_digit (all_tags st) -> Forall has_digit (all_tags st').
Proof.
  intros H Hst. apply try_page_Ok in H.
  destruct H as (results & names & next & _ & Hn & ->). simpl.
  apply Forall_app; split; [exact Hst | eapply comprehension_digits; eauto].
Qed.

(** Every accumulated candidate contains a digit. *)
Lemma fetch_loop_digits fuel st st' :
  fetch_loop fuel st = Return (Some st') ->
  Forall has_digit (all_tags st) -> Forall has_digit (all_tags st').
Proof.
  revert st. induction fuel as [| fuel IH]; intros st; simpl.
  - destruct (loop_guard st); [discriminate |]. intros [= <-]. auto.
  - destruct (loop_guard st); [| intros [= <-]; auto].
    destruct (try_page st (next_url st)) as [st1 | e] eqn:E.
    + intros H Hst. apply (IH st1 H). eapply try_page_digits; eauto.
    + destruct e; discriminate.
Qed.

(** A returned tag contains a digit, so it is not the empty string. *)
Lemma get_latest_tag_digit fuel repo tag :
  get_latest_tag fuel repo = Return (Some tag) -> has_digit tag.
Proof.
  unfold get_latest_tag.
  destruct (fetch_loop fuel (initial repo)) as [[st |] | e |] eqn:E;
    try discriminate.
  intros [= H]. apply select_latest_In in H.
  pose proof (fetch_loop_digits _ _ _ E (Forall_nil_2 _)) as Hall.
  rewrite Forall_forall in Hall. apply Hall. apply list_elem_of_In. exact H.
Qed.

(** More fuel does not change a finished run. *)
Lemma fetch_loop_more_fuel fuel fuel' st :
  fetch_loop fuel st <> NoFuel -> fuel <= fuel' ->
  fetch_loop fuel' st = fetch_loop fuel st.
Proof.
  revert fuel' st. induction fuel as [| fuel IH]; intros fuel' st; simpl.
  - destruct (loop_guard st) eqn:G; [congruence |].
    intros _ _. destruct fuel'; simpl; rewrite G; reflexivity.
  - destruct (loop_guard st) eqn:G.
    + intros H Hle. destruct fuel' as [| fuel']; [lia |]. simpl. rewrite G.
      destruct (try_page st (next_url st)) as [st1 | e]; [| reflexivity].
      apply IH; [exact H | lia].
    + intros _ _. destruct fuel'; simpl; rewrite G; reflexivity.
Qed.

Lemma get_latest_tag_more_fuel fuel fuel' repo :
  get_latest_tag fuel repo <> NoFuel -> fuel <= fuel' ->
  get_latest_tag fuel' repo = get_latest_tag fuel repo.
Proof.
  unfold get_latest_tag. intros H Hle.
  rewrite (fetch_loop_more_fuel fuel fuel'); [reflexivity | | exact Hle].
  intros E. rewrite E in H. congruence.
Qed.

Lemma after_pages_fetch_loop k fuel st st' :
  after_pages k st = Some st' ->
  fetch_loop (k + fuel) st = fetch_loop fuel st'.
Proof.
  revert st. induction k as [| k IH]; intros st; simpl.
  - intros [= <-]. reflexivity.
  - destruct (loop_guard st); [| discriminate].
    destruct (try_page st (next_url st)) as [st1 | e]; [| discriminate].
    apply IH.
Qed.

(** A request that fails after [k] pages ends the function with [None]. *)
Lemma failed_request_returns_None k fuel repo st :
  after_pages k (initial repo) = Some st ->
  loop_guard st = true ->
  http_get (next_url st) = Failed ->
  k < fuel ->
  get_latest_tag fuel repo = Return None.
Proof.
  intros Hk Hguard Hfail Hlt.
  unfold get_latest_tag.
  replace fuel with (k + S (fuel - S k)) by lia.
  rewrite (after_pages_fetch_loop _ _ _ _ Hk). simpl.
  rewrite Hguard. unfold try_page. rewrite Hfail. reflexivity.
Qed.



(** With the budget one page ahead, as it is at the first turn, the loop
    takes another turn exactly when fewer than five candidates are
    known and the page names a next one; the budget is then one page
    ahead again. *)
Lemma loop_goes_on st url st' :
  max_pages st = S (current_page st) ->
  try_page st url = Ok st' ->
  loop_guard st' =
    (List.length (all_tags st') <? 5)%nat && opt_truthy (tags_url st') /\
  (loop_guard st' = true -> max_pages st' = S (current_page st')).
Proof.
  intros Hinv H. apply try_page_Ok in H.
  destruct H as (results & names & next & _ & _ & ->).
  unfold loop_guard. simpl. rewrite Hinv.
  destruct (List.length (all_tags st ++ names) <? 5)%nat; simpl.
  - destruct (opt_truthy next); simpl.
    + split; [| reflexivity]. apply Nat.ltb_lt. lia.
    + split; [reflexivity | discriminate].
  - assert (E : (S (current_page st) <? S (current_page st))%nat = false)
      by (apply Nat.ltb_ge; lia).
    rewrite E, andb_false_r. split; [reflexivity | discriminate].
Qed.
End FetchFacts.

(** *** The order of the entries within a page *)

Lemma digit_names_perm l l' names :
  Permutation l l' ->
  digit_names l = Ok names ->
  exists names', digit_names l' = Ok names' /\ Permutation names names'.
Proof.
  intros Hperm. revert names.
  induction Hperm as [| x l l' _ IH | x y l | l l' l'' _ IH1 _ IH2];
    intros names; simpl.
  - intros [= <-]. eauto.
  - destruct (get_name x) as [n |]; simpl; [| discriminate].
    destruct (digit_names l) as [ns |]; simpl; [| discriminate].
    destruct (IH ns eq_refl) as (ns' & -> & Hns). simpl.
    intros [= <-]. eexists. split; [reflexivity |].
    destruct (any_isdigit n); auto.
  - destruct (get_name y) as [m |]; simpl; [| discriminate].
    destruct (get_name x) as [n |]; simpl; [| discriminate].
    destruct (digit_names l) as [ns |]; simpl; [| discriminate].
    intros [= <-]. eexists. split; [reflexivity |].
    destruct (any_isdigit n), (any_isdigit m); auto using perm_swap.
  - intros H. destruct (IH1 _ H) as (ns' & H' & Hp).
    destruct (IH2 _ H') as (ns'' & H'' & Hp').
    exists ns''. split; [exact H'' | etransitivity; eauto].
Qed.

Section Reordered.
Variable http_get http_get' : string -> response.
Hypothesis reordered : forall url, same_page (http_get url) (http_get' url).

Lemma try_page_reordered st st' url st1 :
  same_locals st st' ->
  try_page http_get st url = Ok st1 ->
  exists st1', try_page http_get' st' url = Ok st1' /\ same_locals st1 st1'.
Proof using reordered.
  intros (Hurl & Htags & Hcur & Hmax) H.
  pose proof (reordered url) as Hpage.
  destruct (try_page_Ok _ _ _ _ H) as (results & names & next & Hget & Hn & ->).
  unfold try_page. rewrite Hget in Hpage. unfold same_page in Hpage.
  destruct results as [| | l].
  - rewrite <- Hpage. simpl in *. injection Hn as <-.
    eexists. split; [reflexivity |].
    repeat split; simpl; try congruence.
    + apply Permutation_app_tail. exact Htags.
    + rewrite !length_app, (Permutation_length Htags), Hmax. reflexivity.
  - discriminate.
  - destruct (http_get' url) as [| [| [| | l'] next']]; try discriminate.
    destruct Hpage as [Hperm <-]. simpl in Hn |- *.
    destruct (digit_names_perm _ _ _ Hperm Hn) as (names' & -> & Hnames). simpl.
    eexists. split; [reflexivity |].
    assert (Hall : Permutation (all_tags st ++ names) (all_tags st' ++ names'))
      by (apply Permutation_app; assumption).
    repeat split; simpl; try congruence.
    rewrite (Permutation_length Hall), Hmax. reflexivity.
Qed.

Lemma loop_guard_same st st' : same_locals st st' -> loop_guard st = loop_guard st'.
Proof. intros (Hurl & _ & Hcur & Hmax). unfold loop_guard. congruence. Qed.

Lemma fetch_loop_reordered fuel st st' st1 :
  same_locals st st' ->
  fetch_loop http_get fuel st = Return (Some st1) ->
  exists st1', fetch_loop http_get' fuel st' = Return (Some st1') /\
               same_locals st1 st1'.
Proof using reordered.
  revert st st'. induction fuel as [| fuel IH]; intros st st' Hsame; simpl;
    rewrite <- (loop_guard_same _ _ Hsame); destruct (loop_guard st);
    try discriminate.
  - intros [= <-]. eauto.
  - destruct (try_page http_get st _) as [st2 | e] eqn:E;
      [| destruct e; discriminate].
    intros H.
    destruct Hsame as (Hurl & Hrest). rewrite <- Hurl.
    destruct (try_page_reordered st st' _ st2 (conj Hurl Hrest) E)
      as (st2' & -> & Hsame2).
    exact (IH _ _ Hsame2 H).
  - intros [= <-]. eauto.
Qed.
End Reordered.

Section ResolverClaims.
Variable V : Type.
Variable parse : string -> parsed V.
Variable vcmp : V -> V -> comparison.
Variable legacy_defined : bool.
Variable http_get : string -> response.
Hypothesis vcmp_laws : cmp_laws vcmp.

Abbreviation fetch_loop := (fetch_loop http_get).
Abbreviation after_pages := (after_pages http_get).
Abbreviation select_latest := (select_latest V parse vcmp legacy_defined).
Abbreviation get_latest_tag_from registry := (get_latest_tag V parse vcmp legacy_defined registry).
Abbreviation get_latest_tag := (get_latest_tag V parse vcmp legacy_defined http_get).

Lemma get_latest_tag_select fuel repo st :
  fetch_loop fuel (initial repo) = Return (Some st) ->
  get_latest_tag fuel repo = Return (select_latest (all_tags st)).
Proof. unfold get_latest_tag. intros ->. reflexivity. Qed.

Lemma pair_le_version (v v' : V) (t t' : string) :
  lex_cmp vcmp String.compare (v', t') (v, t) <> Gt -> vcmp v' v <> Gt.
Proof. unfold lex_cmp. simpl. destruct (vcmp v' v); congruence. Qed.

Lemma pair_le_tag (v v' : V) (t t' : string) :
  vcmp v' v = Eq ->
  lex_cmp vcmp String.compare (v', t') (v, t) <> Gt -> str_lt t t' = false.
Proof.
  unfold lex_cmp. simpl. intros ->.
  apply (lt_of_false String.compare string_compare_laws).
Qed.

(** The semantic choice, where [version.LegacyVersion] exists. *)
Lemma semantic_choice fuel repo st t0 v0 :
  legacy_defined = true ->
  fetch_loop fuel (initial repo) = Return (Some st) ->
  In t0 (all_tags st) ->
  parse t0 = IsVersion v0 ->
  exists t v,
    get_latest_tag fuel repo = Return (Some t) /\
    In t (all_tags st) /\ has_digit t /\ parse t = IsVersion v /\
    (forall t' v', In t' (all_tags st) -> parse t' = IsVersion v' ->
                   lex_cmp vcmp String.compare (v', t') (v, t) <> Gt).
Proof using vcmp_laws.
  intros Hdef Hfetch Hin Hparse.
  destruct (select_latest_semantic V parse vcmp legacy_defined vcmp_laws
              _ _ _ Hdef Hin Hparse)
    as (t & v & Hsel & Ht & Hv & Hmax).
  exists t, v.
  assert (Hget : get_latest_tag fuel repo = Return (Some t))
    by (rewrite (get_latest_tag_select _ _ _ Hfetch), Hsel; reflexivity).
  split; [exact Hget |].
  split; [exact Ht |].
  split; [exact (get_latest_tag_digit _ _ _ _ _ _ _ _ Hget) |].
  split; [exact Hv | exact Hmax].
Qed.

(** C1.  When the loop has accumulated the candidates [all_tags st] and
    one of them parses as a version, the result depends on the installed
    [packaging].  Where [version.LegacyVersion] is gone, the [isinstance]
    test of line 60 raises and [get_latest_tag] returns [None].  Where it
    exists, [get_latest_tag] returns a candidate [t] that parses as a
    version [v] which no parseable candidate exceeds; the same [t] is
    selected from every reordering of the candidates, and returned for
    every registry whose pages list the same entries in another order. *)
Theorem latest_needs_LegacyVersion fuel repo st t0 v0 :
  fetch_loop fuel (initial repo) = Return (Some st) ->
  In t0 (all_tags st) ->
  parse t0 = IsVersion v0 ->
  (legacy_defined = false -> get_latest_tag fuel repo = Return None) /\
  (legacy_defined = true ->
   exists t v,
     get_latest_tag fuel repo = Return (Some t) /\
     In t (all_tags st) /\ has_digit t /\ parse t = IsVersion v /\
     (forall t' v', In t' (all_tags st) -> parse t' = IsVersion v' ->
                    vcmp v' v <> Gt) /\
     (forall tags', Permutation (all_tags st) tags' ->
                    select_latest tags' = Some t) /\
     (forall http_get',
         (forall url, same_page (http_get url) (http_get' url)) ->
         get_latest_tag_from http_get' fuel repo = Return (Some t))).
Proof using vcmp_laws.
  intros Hfetch Hin Hparse. split; intros Hdef.
  - rewrite (get_latest_tag_select _ _ _ Hfetch).
    rewrite (select_latest_missing V parse vcmp legacy_defined _ t0 Hdef Hin);
      [reflexivity | congruence].
  - destruct (semantic_choice _ _ _ _ _ Hdef Hfetch Hin Hparse)
      as (t & v & Hget & Ht & Hdigit & Hv & Hmax).
    assert (Hsel : select_latest (all_tags st) = Some t).
    { rewrite (get_latest_tag_select _ _ _ Hfetch) in Hget. congruence. }
    exists t, v.
    repeat (split; [assumption |]).
    split; [| split].
    + intros t' v' Ht' Hv'. eapply pair_le_version. eauto.
    + intros tags' Hperm.
      rewrite (select_latest_perm V parse vcmp legacy_defined vcmp_laws
                 _ _ Hperm).
      exact Hsel.
    + intros http_get' Hsame.
      assert (Hinit : same_locals (initial repo) (initial repo))
        by (repeat split; reflexivity).
      destruct (fetch_loop_reordered http_get http_get' Hsame _ _ _ _ Hinit Hfetch)
        as (st' & Hfetch' & _ & Hperm & _).
      unfold get_latest_tag_from. rewrite Hfetch'.
      rewrite (select_latest_perm V parse vcmp legacy_defined vcmp_laws
                 _ _ Hperm).
      f_equal. exact Hsel.
Qed.

(** C2.  When the loop has accumulated at least one candidate and none
    parses as a version, [get_latest_tag] returns a candidate that no
    candidate follows in string order.  For the candidates "build-9" and
    "build-10" that is "build-9". *)
Theorem fallback_is_greatest_string fuel repo st :
  fetch_loop fuel (initial repo) = Return (Some st) ->
  all_tags st <> [] ->
  (forall t v, In t (all_tags st) -> parse t <> IsVersion v) ->
  (legacy_defined = false ->
   forall t, In t (all_tags st) -> parse t <> IsLegacy) ->
  (exists t,
     get_latest_tag fuel repo = Return (Some t) /\
     In t (all_tags st) /\ has_digit t /\
     forall t', In t' (all_tags st) -> str_lt t t' = false) /\
  (all_tags st = ["build-9"; "build-10"] ->
   get_latest_tag fuel repo = Return (Some "build-9")).
Proof.
  intros Hfetch Hne Hnone Hlib.
  assert (Hraw : forall t, In t (all_tags st) ->
                   parse t = Invalid \/ parse t = IsLegacy /\ legacy_defined = true).
  { intros t Ht. specialize (Hnone t). specialize (fun H => Hlib H t Ht).
    destruct (parse t) as [v | |]; [elim (Hnone v Ht); reflexivity | | auto].
    destruct legacy_defined; [auto | elim Hlib; reflexivity]. }
  destruct (select_latest_fallback V parse vcmp legacy_defined _ Hne Hraw)
    as (t & Hsel & Ht & Hmax).
  assert (Hget : get_latest_tag fuel repo = Return (Some t))
    by (rewrite (get_latest_tag_select _ _ _ Hfetch), Hsel; reflexivity).
  split.
  - exists t. repeat split; auto.
    exact (get_latest_tag_digit _ _ _ _ _ _ _ _ Hget).
  - intros E. rewrite Hget. rewrite E in Ht, Hmax.
    destruct Ht as [<- | [<- | []]]; [reflexivity |].
    specialize (Hmax "build-9" (or_introl eq_refl)). discriminate.
Qed.

(** C9.  Where [version.LegacyVersion] exists: when two distinct
    candidates parse to versions that compare equal and that no parseable
    candidate exceeds, [get_latest_tag] returns a candidate of their
    version that no candidate of that version follows in string order,
    so neither of the two does; when the two are the only candidates of
    that version, it is the one that comes later in string order. *)
Theorem equal_versions_tie_on_tag fuel repo st t1 t2 v1 v2 :
  legacy_defined = true ->
  fetch_loop fuel (initial repo) = Return (Some st) ->
  In t1 (all_tags st) -> In t2 (all_tags st) -> t1 <> t2 ->
  parse t1 = IsVersion v1 -> parse t2 = IsVersion v2 ->
  vcmp v1 v2 = Eq ->
  (forall t' v', In t' (all_tags st) -> parse t' = IsVersion v' ->
                 vcmp v' v1 <> Gt) ->
  exists t v,
    get_latest_tag fuel repo = Return (Some t) /\
    In t (all_tags st) /\ parse t = IsVersion v /\ vcmp v v1 = Eq /\
    (forall t' v', In t' (all_tags st) -> parse t' = IsVersion v' ->
                   vcmp v' v = Eq -> str_lt t t' = false) /\
    str_lt t t1 = false /\ str_lt t t2 = false /\
    ((forall t' v', In t' (all_tags st) -> parse t' = IsVersion v' ->
                    vcmp v' v1 = Eq -> t' = t1 \/ t' = t2) ->
     t = if str_lt t1 t2 then t2 else t1).
Proof using vcmp_laws.
  intros Hdef Hfetch Hin1 Hin2 Hne Hp1 Hp2 Heq Htop.
  destruct (semantic_choice _ _ _ _ _ Hdef Hfetch Hin1 Hp1)
    as (t & v & Hget & Ht & _ & Hv & Hmax).
  assert (Htie : forall t' v', In t' (all_tags st) -> parse t' = IsVersion v' ->
                               vcmp v' v = Eq -> str_lt t t' = false).
  { intros t' v' Ht' Hv' Hv'v. apply (pair_le_tag v v' t t'); auto. }
  exists t, v.
  assert (Hv1 : vcmp v v1 = Eq).
  { pose proof (Htop t v Ht Hv) as Hle.
    pose proof (pair_le_version _ _ _ _ (Hmax t1 v1 Hin1 Hp1)) as Hge.
    rewrite (cmp_antisym vcmp vcmp_laws v v1) in Hge.
    destruct (vcmp v v1); simpl in Hge; congruence. }
  assert (H1v : vcmp v1 v = Eq) by (apply (cmp_sym_eq vcmp vcmp_laws); exact Hv1).
  assert (H2v : vcmp v2 v = Eq)
    by (rewrite <- (cmp_eq_l vcmp vcmp_laws v1 v2 v Heq); exact H1v).
  pose proof (Htie t1 v1 Hin1 Hp1 H1v) as H1.
  pose proof (Htie t2 v2 Hin2 Hp2 H2v) as H2.
  repeat (split; [assumption |]).
  intros Honly.
  destruct (Honly t v Ht Hv Hv1) as [-> | ->].
  - rewrite H2. reflexivity.
  - destruct (str_lt t1 t2) eqn:E; [reflexivity |].
    apply str_lt_antisym; assumption.
Qed.

End ResolverClaims.

(** ** Pagination *)

Lemma string_length_app s1 s2 :
  String.length (s1 +:+ s2) = String.length s1 + String.length s2.
Proof. induction s1 as [| c s1 IH]; simpl; [reflexivity | rewrite IH; reflexivity]. Qed.

Lemma length_truthy s : 0 < String.length s -> str_truthy s = true.
Proof. destruct s; simpl; [lia | reflexivity]. Qed.

Lemma endpoint_length repo : 0 < String.length (endpoint repo).
Proof. unfold endpoint. simpl. lia. Qed.

Lemma guard_one_ahead url tags n :
  str_truthy url = true -> loop_guard (Locals (Some url) tags n (S n)) = true.
Proof.
  intros Hurl. unfold loop_guard. simpl. rewrite Hurl.
  apply Nat.ltb_lt. lia.
Qed.

Lemma cyclic_loop_runs_out fuel url n :
  str_truthy url = true ->
  fetch_loop cyclic fuel (Locals (Some url) [] n (S n)) = NoFuel.
Proof.
  intros Hurl. revert n. induction fuel as [| fuel IH]; intros n.
  - apply fetch_loop_no_fuel, guard_one_ahead, Hurl.
  - rewrite fetch_loop_turn by (apply guard_one_ahead, Hurl).
    unfold try_page, cyclic. cbn -[fetch_loop str_truthy]. rewrite Hurl.
    apply IH.
Qed.

Lemma paged_loop repo n m k url :
  String.length url = String.length (endpoint repo) + k ->
  k + m = n ->
  fetch_loop (paged repo n) (S m) (Locals (Some url) [] k (S k)) =
  Return (Some (Locals None [] (S n) (S n))).
Proof.
  revert k url. induction m as [| m IH]; intros k url Hlen Hk.
  - assert (Hurl : str_truthy url = true).
    { apply length_truthy. pose proof (endpoint_length repo). lia. }
    assert (E' : (String.length url <? String.length (endpoint repo) + n)%nat = false)
      by (apply Nat.ltb_ge; lia).
    rewrite fetch_loop_turn by (apply guard_one_ahead, Hurl).
    unfold try_page, paged. cbn [tags_url from_option id]. rewrite E'.
    cbn -[fetch_loop]. rewrite fetch_loop_exit by reflexivity.
    replace k with n by lia. reflexivity.
  - assert (Hurl : str_truthy url = true).
    { apply length_truthy. pose proof (endpoint_length repo). lia. }
    assert (E' : (String.length url <? String.length (endpoint repo) + n)%nat = true)
      by (apply Nat.ltb_lt; lia).
    assert (Hnext : str_truthy (url +:+ "+") = true).
    { apply length_truthy. rewrite string_length_app. simpl. lia. }
    rewrite fetch_loop_turn by (apply guard_one_ahead, Hurl).
    unfold try_page at 1, paged at 1. cbn [tags_url from_option id]. rewrite E'.
    cbn -[fetch_loop String.append str_truthy]. rewrite Hnext.
    apply IH; [| lia].
    rewrite string_length_app, Hlen. change (String.length "+") with 1. lia.
Qed.

(** C4.  The number of pages fetched has no bound: a repository with
    [S n] pages of tags without digits costs [S n] requests, and on a
    registry whose pages point back to themselves the function does not
    return, whatever the number of turns allowed. *)
Theorem pagination_has_no_bound (V : Type) parse vcmp legacy_defined :
  (forall n repo, exists fuel st,
      fetch_loop (paged repo n) fuel (initial repo) = Return (Some st) /\
      current_page st = S n) /\
  (forall fuel repo, get_latest_tag V parse vcmp legacy_defined cyclic fuel repo = NoFuel).
Proof.
  split.
  - intros n repo. exists (S n), (Locals None [] (S n) (S n)).
    split; [| reflexivity].
    apply (paged_loop repo n n 0); [| reflexivity].
    rewrite Nat.add_0_r. reflexivity.
  - intros fuel repo. unfold get_latest_tag, initial.
    rewrite cyclic_loop_runs_out; reflexivity.
Qed.

(** ** The config updater *)

Lemma differs_false current_version latest_tag :
  differs current_version latest_tag = false <->
  current_version = Some (YStr latest_tag).
Proof.
  unfold differs. destruct current_version as [[] |]; split; try congruence.
  - intros H. apply negb_false_iff, String.eqb_eq in H. congruence.
  - intros [= ->]. rewrite String.eqb_refl. reflexivity.
Qed.

Lemma differs_true current_version latest_tag :
  differs current_version latest_tag = true <->
  current_version <> Some (YStr latest_tag).
Proof.
  rewrite <- differs_false. destruct (differs _ _); split; congruence.
Qed.

Lemma dict_get_set_eq k v config : dict_get k (dict_set k v config) = Some v.
Proof.
  induction config as [| [key value] rest IH]; simpl.
  - rewrite String.eqb_refl. reflexivity.
  - destruct (key_is k key) eqn:E; simpl; rewrite E; auto.
Qed.

Lemma dict_get_set_ne k k' v config :
  k <> k' -> dict_get k' (dict_set k v config) = dict_get k' config.
Proof.
  intros Hne. induction config as [| [key value] rest IH]; simpl.
  - destruct (String.eqb_spec k k'); [congruence | reflexivity].
  - destruct (key_is k key) eqn:E; simpl.
    + destruct (key_is k' key) eqn:E'; [| reflexivity].
      destruct key; simpl in *; try discriminate.
      apply String.eqb_eq in E, E'. congruence.
    + rewrite IH. reflexivity.
Qed.

Lemma open_read_Ok tree path f :
  tree !! path = Some f -> readable f = true ->
  open_read tree path = Ok (contents f).
Proof. unfold open_read. intros -> ->. reflexivity. Qed.

Lemma open_write_other tree path tree' other :
  open_write tree path = Ok tree' -> other <> path ->
  tree' !! other = tree !! other.
Proof.
  unfold open_write. intros H Hne.
  destruct (tree !! path) as [f |].
  - destruct (writable f); [| discriminate].
    injection H as <-. apply lookup_insert_ne. congruence.
  - injection H as <-. apply lookup_insert_ne. congruence.
Qed.

Lemma write_other tree path text other :
  other <> path -> write tree path text !! other = tree !! other.
Proof.
  unfold write. intros Hne.
  destruct (tree !! path) as [f |]; [| reflexivity].
  apply lookup_insert_ne. congruence.
Qed.

(** An existing file that is opened and written holds the text written,
    with the permissions it had. *)
Lemma write_opened tree path f opened text :
  tree !! path = Some f ->
  open_write tree path = Ok opened ->
  writable f = true /\
  write opened path text = <[path := File text (readable f) true]> tree.
Proof.
  unfold open_write, write. intros ->.
  destruct (writable f) eqn:Hw; [| discriminate].
  intros [= <-]. split; [reflexivity |].
  rewrite lookup_insert_eq. simpl. apply insert_insert_eq.
Qed.

Lemma open_write_Raise tree path f :
  tree !! path = Some f -> writable f = false ->
  open_write tree path = Raise OSError.
Proof. unfold open_write. intros -> ->. reflexivity. Qed.

Lemma open_write_Ok tree path f :
  tree !! path = Some f -> writable f = true ->
  exists opened, open_write tree path = Ok opened.
Proof. unfold open_write. intros -> ->. eauto. Qed.

Section UpdaterClaims.
Variable V : Type.
Variable parse : string -> parsed V.
Variable vcmp : V -> V -> comparison.
Variable legacy_defined : bool.
Variable http_get : string -> response.
Variable safe_load : string -> result yaml.
Variable dump : yaml -> dumped.
Variable str : yaml -> string.
Variable exc_text : exn -> string.

Abbreviation get_latest_tag := (get_latest_tag V parse vcmp legacy_defined http_get).
Abbreviation after_pages := (after_pages http_get).
Abbreviation try_file :=
  (try_file V parse vcmp legacy_defined http_get safe_load dump str).
Abbreviation process_file :=
  (process_file V parse vcmp legacy_defined http_get safe_load dump str).
Abbreviation process_files :=
  (process_files V parse vcmp legacy_defined http_get safe_load dump str).
Abbreviation process_file_log :=
  (process_file_log V parse vcmp legacy_defined http_get safe_load dump str
                    exc_text).
Abbreviation format_value := (format_value str).

(** The [try] block for a file that loads as a mapping with an image. *)
Lemma try_file_image fuel st file_path f config image :
  disk st !! file_path = Some f -> readable f = true ->
  safe_load (contents f) = Ok (YMap config) ->
  dict_get "image" config = Some image ->
  try_file fuel st file_path =
  match get_latest_tag fuel (format_value image) with
  | Return (Some latest_tag) =>
      if differs (dict_get "version" config) latest_tag then
        match open_write (disk st) file_path with
        | Ok opened =>
            match dump (YMap (dict_set "version" (YStr latest_tag) config)) with
            | Dumped text =>
                (Tally (write opened file_path text)
                       (S (updated_count st)) (error_count st),
                 Return tt)
            | DumpFailed partial e =>
                (Tally (write opened file_path partial)
                       (updated_count st) (error_count st),
                 Raised e)
            end
        | Raise e => (st, Raised e)
        end
      else (st, Return tt)
  | Return None => (st, Return tt)
  | Raised e => (st, Raised e)
  | NoFuel => (st, NoFuel)
  end.
Proof.
  intros Hf Hr Hload Himage. unfold try_file.
  rewrite (open_read_Ok _ _ _ Hf Hr). simpl. rewrite Hload, Himage.
  destruct (get_latest_tag fuel (format_value image)) as [[tag |] | e |] eqn:E;
    try reflexivity.
  apply get_latest_tag_digit, any_isdigit_truthy in E. rewrite E. reflexivity.
Qed.

(** The [try] block changes the tree at its own path only. *)
Lemma try_file_other fuel st file_path other :
  other <> file_path ->
  disk (try_file fuel st file_path).1 !! other = disk st !! other.
Proof.
  unfold try_file. intros Hne.
  destruct (open_read (disk st) file_path ≫= safe_load) as [[] | e];
    try reflexivity.
  destruct (dict_get "image" items) as [image |]; [| reflexivity].
  destruct (get_latest_tag fuel (format_value image)) as [[tag |] | e |];
    try reflexivity.
  destruct (str_truthy tag); [| reflexivity].
  destruct (differs (dict_get "version" items) tag); [| reflexivity].
  destruct (open_write _ _) as [opened | e] eqn:W; [| reflexivity].
  destruct (dump _); simpl; rewrite write_other by exact Hne;
    eapply open_write_other; eauto.
Qed.

(** A file is only ever written by its own turn of the loop. *)
Lemma process_file_other fuel st file_path st' other :
  process_file fuel st file_path = Some st' ->
  other <> file_path ->
  disk st' !! other = disk st !! other.
Proof.
  unfold process_file. intros H Hne.
  pose proof (try_file_other fuel st file_path other Hne) as Hother.
  destruct (try_file fuel st file_path) as [st1 [[] | e |]];
    [| | discriminate]; injection H as <-; exact Hother.
Qed.

(** A file that holds a mapping without an image stays as it is. *)
Lemma process_file_no_image fuel st file_path f config st' :
  disk st !! file_path = Some f ->
  safe_load (contents f) = Ok (YMap config) ->
  dict_get "image" config = None ->
  process_file fuel st file_path = Some st' ->
  disk st' = disk st.
Proof.
  unfold process_file, try_file, open_read. intros Hf Hload Himage.
  rewrite Hf. destruct (readable f); simpl.
  - rewrite Hload, Himage. intros [= <-]. reflexivity.
  - intros [= <-]. reflexivity.
Qed.

Lemma process_files_no_image fuel paths st st' file_path f config :
  disk st !! file_path = Some f ->
  safe_load (contents f) = Ok (YMap config) ->
  dict_get "image" config = None ->
  process_files fuel st paths = Some st' ->
  disk st' !! file_path = Some f.
Proof.
  intros Hf Hload Himage. revert st Hf.
  induction paths as [| path rest IH]; intros st Hf; simpl.
  - intros [= <-]. exact Hf.
  - destruct (process_file fuel st path) as [st1 |] eqn:E; [| discriminate].
    apply IH.
    destruct (decide (path = file_path)) as [-> | Hne].
    + rewrite (process_file_no_image _ _ _ _ _ _ Hf Hload Himage E). exact Hf.
    + rewrite (process_file_other _ _ _ _ file_path E); [exact Hf | congruence].
Qed.

(** Every path in the walk gets one turn of the loop, on the tree and the
    counters that the turns before it left. *)
Lemma process_files_app fuel st before after :
  process_files fuel st (before ++ after) =
  match process_files fuel st before with
  | Some st' => process_files fuel st' after
  | None => None
  end.
Proof.
  revert st. induction before as [| path rest IH]; intros st; simpl.
  - reflexivity.
  - destruct (process_file fuel st path); [apply IH | reflexivity].
Qed.

Lemma update_config_files_turn fuel walk tree before file_path after st :
  config_paths walk = before ++ file_path :: after ->
  process_files fuel (Tally tree 0 0) before = Some st ->
  update_config_files V parse vcmp legacy_defined http_get safe_load dump str fuel walk tree =
  match process_file fuel st file_path with
  | Some st' => process_files fuel st' after
  | None => None
  end.
Proof.
  intros Hpaths Hbefore. unfold update_config_files.
  rewrite Hpaths, process_files_app, Hbefore. reflexivity.
Qed.

(** C3, as the code has it.  For a file that loads as a mapping with an
    image for which the resolver returns [T].  When [T] is not the
    mapping's version, the file can be opened for writing and
    [yaml.dump] writes its text in full, [process_file] leaves at the
    same path the dump of the mapping with its version set to [T] and
    the other keys as they were, and adds one to [updated_count] only.
    When the file cannot be opened for writing, one error is counted and
    nothing else changes; when the dump breaks off, the file holds what
    was written until then and one error is counted.  When [T] is the
    mapping's version, nothing changes. *)
Theorem newer_tag_is_written fuel st file_path f config image T :
  disk st !! file_path = Some f -> readable f = true ->
  safe_load (contents f) = Ok (YMap config) ->
  dict_get "image" config = Some image ->
  get_latest_tag fuel (format_value image) = Return (Some T) ->
  let config' := dict_set "version" (YStr T) config in
  (dict_get "version" config <> Some (YStr T) ->
   (writable f = true ->
    forall text, dump (YMap config') = Dumped text ->
    process_file fuel st file_path =
      Some (Tally (<[file_path := File text true true]> (disk st))
                  (S (updated_count st)) (error_count st))) /\
   (writable f = true ->
    forall partial e, dump (YMap config') = DumpFailed partial e ->
    process_file fuel st file_path =
      Some (Tally (<[file_path := File partial true true]> (disk st))
                  (updated_count st) (S (error_count st)))) /\
   (writable f = false ->
    process_file fuel st file_path =
      Some (Tally (disk st) (updated_count st) (S (error_count st))))) /\
  dict_get "version" config' = Some (YStr T) /\
  (forall k, k <> "version" -> dict_get k config' = dict_get k config) /\
  (dict_get "version" config = Some (YStr T) ->
   process_file fuel st file_path = Some st).
Proof.
  intros Hf Hr Hload Himage Htag config'. unfold process_file.
  rewrite (try_file_image _ _ _ _ _ _ Hf Hr Hload Himage), Htag.
  split; [| split; [apply dict_get_set_eq | split]].
  - intros Hdiff. apply differs_true in Hdiff. rewrite Hdiff.
    split; [| split].
    + intros Hw text Hdump.
      destruct (open_write_Ok _ _ _ Hf Hw) as [opened Hopen].
      rewrite Hopen. fold config'. rewrite Hdump.
      destruct (write_opened _ _ _ _ text Hf Hopen) as [_ ->].
      rewrite Hr. reflexivity.
    + intros Hw partial e Hdump.
      destruct (open_write_Ok _ _ _ Hf Hw) as [opened Hopen].
      rewrite Hopen. fold config'. rewrite Hdump.
      destruct (write_opened _ _ _ _ partial Hf Hopen) as [_ ->].
      rewrite Hr. reflexivity.
    + intros Hw. rewrite (open_write_Raise _ _ _ Hf Hw). reflexivity.
  - intros k Hk. apply dict_get_set_ne. congruence.
  - intros Hsame. apply differs_false in Hsame. rewrite Hsame. reflexivity.
Qed.

Lemma unresolved_leaves_file fuel st file_path f config image :
  disk st !! file_path = Some f -> readable f = true ->
  safe_load (contents f) = Ok (YMap config) ->
  dict_get "image" config = Some image ->
  get_latest_tag fuel (format_value image) = Return None ->
  process_file fuel st file_path = Some st.
Proof.
  intros Hf Hr Hload Himage Htag. unfold process_file.
  rewrite (try_file_image _ _ _ _ _ _ Hf Hr Hload Himage), Htag. reflexivity.
Qed.

(** C6, as the code has it.  For a file that loads as a mapping with an
    image, when a request for that image raises a [RequestException]
    (no connection, a timeout, a status that is not a success) at any
    page, [process_file] changes neither the tree nor a counter. *)
Theorem request_failure_leaves_file fuel st file_path f config image k page :
  disk st !! file_path = Some f -> readable f = true ->
  safe_load (contents f) = Ok (YMap config) ->
  dict_get "image" config = Some image ->
  after_pages k (initial (format_value image)) = Some page ->
  loop_guard page = true ->
  http_get (default "" (tags_url page)) = Failed ->
  k < fuel ->
  process_file fuel st file_path = Some st.
Proof.
  intros Hf Hr Hload Himage Hk Hguard Hfail Hlt.
  eapply unresolved_leaves_file; eauto.
  eapply failed_request_returns_None; eauto.
Qed.

(** C7.  For a file that loads as a mapping without an image,
    [process_file] changes neither the tree nor a counter, and the file
    is the same after any run over any list of paths. *)
Theorem no_image_never_rewritten st file_path f config :
  disk st !! file_path = Some f -> readable f = true ->
  safe_load (contents f) = Ok (YMap config) ->
  dict_get "image" config = None ->
  (forall fuel, process_file fuel st file_path = Some st) /\
  (forall fuel paths st',
      process_files fuel st paths = Some st' ->
      disk st' !! file_path = Some f).
Proof.
  intros Hf Hr Hload Himage. split.
  - intros fuel. unfold process_file, try_file.
    rewrite (open_read_Ok _ _ _ Hf Hr). simpl. rewrite Hload, Himage.
    reflexivity.
  - intros fuel paths st'. eapply process_files_no_image; eauto.
Qed.

(** C8.  For a file that cannot be read, or whose text [yaml.safe_load]
    rejects, [process_file] adds one to [error_count] and changes
    nothing else. *)
Theorem unloadable_counts_one_error fuel st file_path e :
  open_read (disk st) file_path = Raise e \/
  (exists text, open_read (disk st) file_path = Ok text /\
                safe_load text = Raise e) ->
  process_file fuel st file_path =
    Some (Tally (disk st) (updated_count st) (S (error_count st))).
Proof.
  unfold process_file, try_file.
  intros [-> | (text & -> & Hload)]; simpl; [| rewrite Hload]; reflexivity.
Qed.

(** What is not a dict. *)
Lemma not_a_mapping_skipped fuel st file_path text value :
  open_read (disk st) file_path = Ok text ->
  safe_load text = Ok value ->
  (forall items, value <> YMap items) ->
  process_file fuel st file_path = Some st.
Proof.
  unfold process_file, try_file. intros -> Hload Hnot. simpl.
  rewrite Hload. destruct value; try reflexivity.
  exfalso. exact (Hnot items eq_refl).
Qed.

(** C10.  For a file whose text loads as [None], the turn logs the
    warning of line 93 and nothing else, and changes neither the tree nor
    a counter. *)
Theorem null_document_skipped fuel st file_path text :
  open_read (disk st) file_path = Ok text ->
  safe_load text = Ok YNull ->
  process_file_log fuel st file_path =
    Some (st, [(WARNING, "Skipping " +:+ file_path
                         +:+ ": Not a valid YAML dictionary")]) /\
  process_file fuel st file_path = Some st.
Proof.
  intros Hread Hload. split.
  - unfold process_file_log, try_file_log. rewrite Hread. simpl.
    rewrite Hload. reflexivity.
  - eapply not_a_mapping_skipped; [exact Hread | exact Hload | discriminate].
Qed.
End UpdaterClaims.

(** ** The script on the sample collaborators *)

Lemma dotted_lex_laws : cmp_laws Dotted.lex.
Proof.
  split.
  - intros x. induction x as [| a x IH]; intros [| b y]; simpl; try reflexivity.
    rewrite (N.compare_antisym a b), IH.
    destruct (N.compare a b); reflexivity.
  - intros c x. induction x as [| a x IH]; intros [| b y] [| d z]; simpl;
      try congruence.
    destruct (N.compare a b) eqn:Eab.
    + rewrite (cmp_eq_l _ N_compare_laws a b d Eab).
      destruct (N.compare b d); [apply IH | congruence | congruence].
    + destruct (N.compare b d) eqn:Ebd.
      * rewrite <- (cmp_eq_r _ N_compare_laws b d a Ebd), Eab. congruence.
      * rewrite (cmp_trans _ N_compare_laws Lt a b d Eab Ebd). congruence.
      * congruence.
    + destruct (N.compare b d) eqn:Ebd.
      * rewrite <- (cmp_eq_r _ N_compare_laws b d a Ebd), Eab. congruence.
      * congruence.
      * rewrite (cmp_trans _ N_compare_laws Gt a b d Eab Ebd). congruence.
Qed.

Lemma dotted_vcmp_laws : cmp_laws Dotted.vcmp.
Proof. exact (key_cmp_laws Dotted.cmpkey Dotted.lex dotted_lex_laws). Qed.

Example resolve_x_y : sample_get_latest_tag 5 "x/y" = Return (Some "1.2.0").
Proof. reflexivity. Qed.

Example resolve_two_pages : sample_get_latest_tag 5 "lib/sparse" = Return (Some "2.1").
Proof. reflexivity. Qed.

Example resolve_no_digits : sample_get_latest_tag 5 "lib/words" = Return None.
Proof. reflexivity. Qed.

Example resolve_tie : sample_get_latest_tag 5 "lib/ties" = Return (Some "1.0.0").
Proof. reflexivity. Qed.

Example resolve_null_results : sample_get_latest_tag 5 "lib/null" = Raised TypeError.
Proof. reflexivity. Qed.

Example resolve_fallback : sample_get_latest_tag 5 "lib/nightly" = Return (Some "build-9").
Proof. reflexivity. Qed.

(** String order puts "9" after "10"; release order does the opposite. *)
Example nine_and_ten :
  first_sorted_reverse str_lt ["9"; "10"] = Some "9" /\
  select_latest Dotted.version Dotted.parse Dotted.vcmp true ["9"; "10"] = Some "10".
Proof. split; reflexivity. Qed.

Example run_on_tree :
  option_map (fun st => (updated_count st, error_count st))
             (sample_update_config_files 5) = Some (2, 4).
Proof. vm_compute. reflexivity. Qed.

(** The same repository seen through the library of packaging 22 and
    later: the first candidate that parses ends the selection. *)
Example resolve_x_y_strict : strict_get_latest_tag 5 "x/y" = Return None.
Proof. reflexivity. Qed.

(** There, tags that do not parse still reach the string sort. *)
Example resolve_fallback_strict :
  strict_get_latest_tag 5 "lib/nightly" = Return (Some "build-9").
Proof. reflexivity. Qed.

Lemma latest_needs_LegacyVersion_witness :
  strict_get_latest_tag 5 "x/y" = Return None /\
  exists t v,
    sample_get_latest_tag 5 "x/y" = Return (Some t) /\
    In t ["1.0.0"; "1.2.0"; "1.2.0-alpine"] /\ has_digit t /\
    Dotted.parse t = IsVersion v /\
    (forall t' v', In t' ["1.0.0"; "1.2.0"; "1.2.0-alpine"] ->
                   Dotted.parse t' = IsVersion v' -> Dotted.vcmp v' v <> Gt) /\
    (forall tags', Permutation ["1.0.0"; "1.2.0"; "1.2.0-alpine"] tags' ->
                   select_latest Dotted.version Dotted.parse Dotted.vcmp true tags'
                   = Some t) /\
    (forall http_get',
        (forall url, same_page (hub url) (http_get' url)) ->
        get_latest_tag Dotted.version Dotted.parse Dotted.vcmp true http_get' 5 "x/y"
        = Return (Some t)).
Proof.
  split.
  - destruct (latest_needs_LegacyVersion Dotted.version Dotted.parse_strict
                Dotted.vcmp false hub dotted_vcmp_laws 5 "x/y"
                (Locals None ["1.0.0"; "1.2.0"; "1.2.0-alpine"] 1 1)
                "1.0.0" [1; 0; 0]%N) as [H _].
    + reflexivity.
    + simpl. auto.
    + reflexivity.
    + exact (H eq_refl).
  - destruct (latest_needs_LegacyVersion Dotted.version Dotted.parse
                Dotted.vcmp true hub dotted_vcmp_laws 5 "x/y"
                (Locals None ["1.0.0"; "1.2.0"; "1.2.0-alpine"] 1 1)
                "1.0.0" [1; 0; 0]%N) as [_ H].
    + reflexivity.
    + simpl. auto.
    + reflexivity.
    + exact (H eq_refl).
Defined.

Lemma fallback_is_greatest_string_witness :
  (exists t,
     sample_get_latest_tag 5 "lib/builds" = Return (Some t) /\
     In t ["build-9"; "build-10"] /\ has_digit t /\
     forall t', In t' ["build-9"; "build-10"] -> str_lt t t' = false) /\
  (["build-9"; "build-10"] = ["build-9"; "build-10"] ->
   sample_get_latest_tag 5 "lib/builds" = Return (Some "build-9")).
Proof.
  apply (fallback_is_greatest_string Dotted.version Dotted.parse Dotted.vcmp true hub
           5 "lib/builds" (Locals None ["build-9"; "build-10"] 1 1)).
  - reflexivity.
  - simpl. discriminate.
  - simpl. intros t v [<- | [<- | []]]; discriminate.
  - discriminate.
Defined.

(** The tags "9" and "10" are versions: the list of the two does not
    reach the string sort, and the result is not "9" under either
    generation of the library. *)
Lemma nine_and_ten_are_versions :
  hub (endpoint "lib/numbers") =
    Json (Dict (ResultsList [Named "9"; Named "10"]) None) /\
  Dotted.parse "9" = IsVersion [9]%N /\
  Dotted.parse "10" = IsVersion [10]%N /\
  sample_get_latest_tag 5 "lib/numbers" = Return (Some "10") /\
  strict_get_latest_tag 5 "lib/numbers" = Return None.
Proof. repeat split. Qed.

Lemma equal_versions_tie_on_tag_witness :
  exists t v,
    sample_get_latest_tag 5 "lib/ties" = Return (Some t) /\
    In t ["1.0"; "1.0.0"; "0.9"] /\
    Dotted.parse t = IsVersion v /\
    Dotted.vcmp v [1; 0]%N = Eq /\
    (forall t' v', In t' ["1.0"; "1.0.0"; "0.9"] ->
                   Dotted.parse t' = IsVersion v' ->
                   Dotted.vcmp v' v = Eq -> str_lt t t' = false) /\
    str_lt t "1.0" = false /\ str_lt t "1.0.0" = false /\
    ((forall t' v', In t' ["1.0"; "1.0.0"; "0.9"] ->
                    Dotted.parse t' = IsVersion v' ->
                    Dotted.vcmp v' [1; 0]%N = Eq -> t' = "1.0" \/ t' = "1.0.0") ->
     t = "1.0.0").
Proof.
  apply (equal_versions_tie_on_tag Dotted.version Dotted.parse Dotted.vcmp true hub
           dotted_vcmp_laws 5 "lib/ties"
           (Locals None ["1.0"; "1.0.0"; "0.9"] 1 1)
           "1.0" "1.0.0" [1; 0]%N [1; 0; 0]%N).
  - reflexivity.
  - reflexivity.
  - simpl. auto.
  - simpl. auto.
  - discriminate.
  - reflexivity.
  - reflexivity.
  - reflexivity.
  - simpl. intros t' v' [<- | [<- | [<- | []]]] [= <-]; discriminate.
Defined.

(** The tags "1.0" and "1.0.0" of [lib/three] parse to equal versions,
    and the result is neither of them: "2.0" is a higher version.  With
    the library of packaging 22 and later it is no tag at all. *)
Lemma higher_version_beats_tie :
  hub (endpoint "lib/three") =
    Json (Dict (ResultsList [Named "1.0"; Named "1.0.0"; Named "2.0"]) None) /\
  Dotted.parse "1.0" = IsVersion [1; 0]%N /\
  Dotted.parse "1.0.0" = IsVersion [1; 0; 0]%N /\
  Dotted.vcmp [1; 0]%N [1; 0; 0]%N = Eq /\
  sample_get_latest_tag 5 "lib/three" = Return (Some "2.0") /\
  strict_get_latest_tag 5 "lib/three" = Return None.
Proof. repeat split. Qed.



Lemma newer_tag_is_written_witness :
  sample_process_file 5 (Tally tree 0 0) "./app/config.yaml" =
    Some (Tally (<["./app/config.yaml" :=
                    File (Flat.text_of ["name: app"; "image: x/y"; "version: 1.2.0"])
                         true true]> tree) 1 0) /\
  sample_process_file 5 (Tally tree 0 0) "./current/config.yaml" =
    Some (Tally tree 0 0).
Proof.
  split.
  - destruct (newer_tag_is_written Dotted.version Dotted.parse Dotted.vcmp true hub
                Flat.safe_load Flat.dump Flat.str 5 (Tally tree 0 0)
                "./app/config.yaml"
                (File (Flat.text_of ["name: app"; "image: x/y"; "version: 1.0.0"])
                      true true)
                [(YStr "name", YStr "app"); (YStr "image", YStr "x/y");
                 (YStr "version", YStr "1.0.0")]
                (YStr "x/y") "1.2.0") as [H _];
      [reflexivity | reflexivity | reflexivity | reflexivity | reflexivity |].
    assert (Hdiff : Some (YStr "1.0.0") <> Some (YStr "1.2.0")) by discriminate.
    destruct (H Hdiff) as [Hwritten _].
    exact (Hwritten eq_refl _ eq_refl).
  - destruct (newer_tag_is_written Dotted.version Dotted.parse Dotted.vcmp true hub
                Flat.safe_load Flat.dump Flat.str 5 (Tally tree 0 0)
                "./current/config.yaml"
                (File (Flat.text_of ["image: x/y"; "version: 1.2.0"]) true true)
                [(YStr "image", YStr "x/y"); (YStr "version", YStr "1.2.0")]
                (YStr "x/y") "1.2.0") as (_ & _ & _ & H);
      [reflexivity | reflexivity | reflexivity | reflexivity | reflexivity |].
    exact (H eq_refl).
Defined.

(** [./locked/config.yaml] loads as a mapping with an image whose latest
    tag is not its version, but cannot be opened for writing: [open]
    raises, the handler counts an error, and [updated_count] stays.
    [./app/config.yaml] can be opened, but under a [yaml.dump] that
    breaks off before it has written anything the file is left empty,
    and again an error is counted and [updated_count] stays. *)
Lemma failed_write_not_updated :
  Flat.safe_load (Flat.text_of ["image: x/y"; "version: 1.0.0"]) =
    Ok (YMap [(YStr "image", YStr "x/y"); (YStr "version", YStr "1.0.0")]) /\
  tree !! "./locked/config.yaml" =
    Some (File (Flat.text_of ["image: x/y"; "version: 1.0.0"]) true false) /\
  sample_get_latest_tag 5 "x/y" = Return (Some "1.2.0") /\
  sample_process_file 5 (Tally tree 0 0) "./locked/config.yaml" =
    Some (Tally tree 0 1) /\
  tree !! "./app/config.yaml" =
    Some (File (Flat.text_of ["name: app"; "image: x/y"; "version: 1.0.0"])
               true true) /\
  process_file Dotted.version Dotted.parse Dotted.vcmp true hub
               Flat.safe_load no_space Flat.str 5 (Tally tree 0 0)
               "./app/config.yaml" =
    Some (Tally (<["./app/config.yaml" := File "" true true]> tree) 0 1).
Proof. repeat split. Qed.

Lemma request_failure_leaves_file_witness :
  sample_process_file 5 (Tally tree 0 0) "./offline/config.yaml" =
    Some (Tally tree 0 0).
Proof.
  apply (request_failure_leaves_file Dotted.version Dotted.parse Dotted.vcmp true hub
           Flat.safe_load Flat.dump Flat.str 5 (Tally tree 0 0)
           "./offline/config.yaml"
           (File (Flat.text_of ["image: lib/gone"; "version: 3.1.0"]) true true)
           [(YStr "image", YStr "lib/gone"); (YStr "version", YStr "3.1.0")]
           (YStr "lib/gone") 0 (initial "lib/gone"));
    try reflexivity.
  lia.
Defined.

(** The registry answers the request for the image of
    [./array/config.yaml] with a body that is a JSON array: the
    [AttributeError] reaches the handler of [update_config_files], which
    counts an error. *)
Lemma malformed_body_counts_error :
  Flat.safe_load (Flat.text_of ["image: lib/array"; "version: 3.1.0"]) =
    Ok (YMap [(YStr "image", YStr "lib/array"); (YStr "version", YStr "3.1.0")]) /\
  tree !! "./array/config.yaml" =
    Some (File (Flat.text_of ["image: lib/array"; "version: 3.1.0"]) true true) /\
  hub (endpoint "lib/array") = Json NotDict /\
  sample_process_file 5 (Tally tree 0 0) "./array/config.yaml" =
    Some (Tally tree 0 1).
Proof. repeat split. Qed.

Lemma no_image_never_rewritten_witness :
  (forall fuel,
      sample_process_file fuel (Tally tree 0 0) "./local/config.yaml" =
        Some (Tally tree 0 0)) /\
  (forall fuel paths st',
      process_files Dotted.version Dotted.parse Dotted.vcmp true hub
                    Flat.safe_load Flat.dump Flat.str fuel (Tally tree 0 0) paths
        = Some st' ->
      disk st' !! "./local/config.yaml" =
        Some (File (Flat.text_of ["name: local"; "version: 0.1.0"]) true true)).
Proof.
  apply (no_image_never_rewritten Dotted.version Dotted.parse Dotted.vcmp true hub
           Flat.safe_load Flat.dump Flat.str (Tally tree 0 0)
           "./local/config.yaml"
           (File (Flat.text_of ["name: local"; "version: 0.1.0"]) true true)
           [(YStr "name", YStr "local"); (YStr "version", YStr "0.1.0")]);
    reflexivity.
Defined.

Lemma unloadable_counts_one_error_witness :
  sample_process_file 5 (Tally tree 0 0) "./broken/config.yaml" =
    Some (Tally tree 0 1) /\
  sample_process_file 5 (Tally tree 0 0) "./secret/config.yaml" =
    Some (Tally tree 0 1).
Proof.
  split.
  - apply (unloadable_counts_one_error Dotted.version Dotted.parse Dotted.vcmp true hub
             Flat.safe_load Flat.dump Flat.str 5 (Tally tree 0 0)
             "./broken/config.yaml" YAMLError).
    right. exists (Flat.text_of ["image: x/y"; "version"]).
    split; reflexivity.
  - apply (unloadable_counts_one_error Dotted.version Dotted.parse Dotted.vcmp true hub
             Flat.safe_load Flat.dump Flat.str 5 (Tally tree 0 0)
             "./secret/config.yaml" OSError).
    left. reflexivity.
Defined.

Lemma null_document_skipped_witness :
  process_file_log Dotted.version Dotted.parse Dotted.vcmp true hub
                   Flat.safe_load Flat.dump Flat.str sample_exc_text
                   5 (Tally tree 0 0) "./empty/config.yaml" =
    Some (Tally tree 0 0,
          [(WARNING,
            "Skipping ./empty/config.yaml: Not a valid YAML dictionary")]) /\
  sample_process_file 5 (Tally tree 0 0) "./empty/config.yaml" =
    Some (Tally tree 0 0).
Proof.
  apply (null_document_skipped Dotted.version Dotted.parse Dotted.vcmp true hub
           Flat.safe_load Flat.dump Flat.str sample_exc_text 5 (Tally tree 0 0)
           "./empty/config.yaml" "");
    reflexivity.
Defined.

(** * Further properties of the resolver *)

Section ResolverMore.
Variable V : Type.
Variable parse : string -> parsed V.
Variable vcmp : V -> V -> comparison.
Variable legacy_defined : bool.
Variable http_get : string -> response.

Abbreviation try_page := (try_page http_get).
Abbreviation fetch_loop := (fetch_loop http_get).
Abbreviation after_pages := (after_pages http_get).
Abbreviation select_latest := (select_latest V parse vcmp legacy_defined).
Abbreviation get_latest_tag := (get_latest_tag V parse vcmp legacy_defined http_get).
Abbreviation next_url st := (default "" (tags_url st)).
Abbreviation listed tag :=
  (exists url l next,
      http_get url = Json (Dict (ResultsList l) next) /\ In (Named tag) l).
Abbreviation one_ahead st :=
  (loop_guard st = true ->
   List.length (all_tags st) < 5 /\ max_pages st = S (current_page st)).

Lemma digit_names_In results names n :
  digit_names results = Ok names -> In n names ->
  In (Named n) results /\ has_digit n.
Proof.
  revert names. induction results as [| tag rest IH]; simpl; intros names.
  - intros [= <-] [].
  - destruct tag as [m | |]; simpl; try discriminate.
    destruct (digit_names rest) as [ns |]; simpl; [| discriminate].
    destruct (any_isdigit m) eqn:E; intros [= <-] Hin.
    + destruct Hin as [<- | Hin]; [auto |].
      destruct (IH ns eq_refl Hin); auto.
    + destruct (IH ns eq_refl Hin); auto.
Qed.

Lemma try_page_listed st url st' :
  try_page st url = Ok st' ->
  (forall t, In t (all_tags st) -> has_digit t /\ listed t) ->
  forall t, In t (all_tags st') -> has_digit t /\ listed t.
Proof.
  intros H Hst t Ht. apply try_page_Ok in H.
  destruct H as (results & names & next & Hget & Hn & ->). simpl in Ht.
  apply in_app_or in Ht. destruct Ht as [Ht | Ht]; [auto |].
  destruct results as [| | l]; simpl in Hn; try discriminate.
  - injection Hn as <-. destruct Ht.
  - destruct (digit_names_In _ _ _ Hn Ht) as [Hin Hd].
    split; [exact Hd |]. exists url, l, next. auto.
Qed.

Lemma fetch_loop_listed fuel st st' :
  fetch_loop fuel st = Return (Some st') ->
  (forall t, In t (all_tags st) -> has_digit t /\ listed t) ->
  forall t, In t (all_tags st') -> has_digit t /\ listed t.
Proof.
  revert st. induction fuel as [| fuel IH]; intros st; simpl.
  - destruct (loop_guard st); [discriminate |]. intros [= <-]. auto.
  - destruct (loop_guard st); [| intros [= <-]; auto].
    destruct (try_page st (next_url st)) as [st1 | e] eqn:E.
    + intros H Hst. apply (IH st1 H). eapply try_page_listed; eauto.
    + destruct e; discriminate.
Qed.

(** X1.  A tag that [get_latest_tag] returns is the name of an entry of
    a page of the registry, and it contains a digit: it is never the
    empty string, and never a name such as "latest". *)
Theorem returned_tag_is_listed fuel repo tag :
  get_latest_tag fuel repo = Return (Some tag) ->
  has_digit tag /\ tag <> "" /\
  exists url l next,
    http_get url = Json (Dict (ResultsList l) next) /\ In (Named tag) l.
Proof.
  unfold get_latest_tag.
  destruct (fetch_loop fuel (initial repo)) as [[st |] | e |] eqn:E;
    try discriminate.
  intros [= H]. apply select_latest_In in H.
  assert (Hinit : forall t, In t (all_tags (initial repo)) ->
                            has_digit t /\ listed t) by (intros t []).
  destruct (fetch_loop_listed _ _ _ E Hinit tag H) as [Hd Hl].
  split; [exact Hd |]. split; [| exact Hl].
  intros ->. discriminate.
Qed.

Lemma digit_names_Raise results e :
  digit_names results = Raise e -> e = KeyError \/ e = TypeError.
Proof.
  induction results as [| tag rest IH]; simpl; [discriminate |].
  destruct tag; simpl.
  - destruct (digit_names rest); simpl; [discriminate | exact IH].
  - intros [= <-]. auto.
  - intros [= <-]. auto.
Qed.

(** The exceptions that a turn of the loop can raise, and when. *)
Lemma try_page_Raise st url e :
  try_page st url = Raise e ->
  (e = RequestException /\ http_get url = Failed) \/
  ((e = AttributeError \/ e = KeyError \/ e = TypeError) /\
   response_ok (http_get url) = false).
Proof.
  unfold try_page.
  destruct (http_get url) as [| [| results next]]; simpl.
  - intros [= <-]. auto.
  - intros [= <-]. auto.
  - destruct results as [| | l]; simpl; try discriminate.
    + intros [= <-]. auto.
    + destruct (digit_names l) as [names |] eqn:En; simpl; [discriminate |].
      intros [= <-]. right.
      split; [destruct (digit_names_Raise _ _ En); auto |].
      clear -En. induction l as [| tag rest IH]; simpl in *; [discriminate |].
      destruct tag; simpl in *; try reflexivity.
      destruct (digit_names rest); simpl in *; [discriminate | auto].
Qed.

Lemma fetch_loop_None fuel st :
  fetch_loop fuel st = Return None ->
  exists k st',
    k < fuel /\ after_pages k st = Some st' /\ loop_guard st' = true /\
    http_get (next_url st') = Failed.
Proof.
  revert st. induction fuel as [| fuel IH]; intros st; simpl.
  - destruct (loop_guard st); discriminate.
  - destruct (loop_guard st) eqn:G; [| discriminate].
    destruct (try_page st (next_url st)) as [st1 | e] eqn:E.
    + intros H. destruct (IH st1 H) as (k & st' & Hk & Hafter & Hg & Hf).
      exists (S k), st'. split; [lia |]. simpl. rewrite G, E. auto.
    + intros H. exists 0, st. split; [lia |]. split; [reflexivity |].
      split; [exact G |].
      destruct (try_page_Raise _ _ _ E) as [[_ Hf] | [[-> | [-> | ->]] _]];
        [exact Hf | discriminate | discriminate | discriminate].
Qed.

(** X2.  [get_latest_tag] returns [None] only when a request raised a
    [RequestException] at some page, when the loop ended without a
    candidate, or when [version.LegacyVersion] is missing and
    [version.parse] returned for one of the candidates, which sends the
    selection to the handler of lines 72-74. *)
Theorem None_has_three_causes fuel repo :
  get_latest_tag fuel repo = Return None ->
  (exists k st,
      k < fuel /\ after_pages k (initial repo) = Some st /\
      loop_guard st = true /\ http_get (default "" (tags_url st)) = Failed) \/
  (exists st,
      fetch_loop fuel (initial repo) = Return (Some st) /\ all_tags st = []) \/
  (legacy_defined = false /\
   exists st t,
     fetch_loop fuel (initial repo) = Return (Some st) /\
     In t (all_tags st) /\ parse t <> Invalid).
Proof.
  unfold get_latest_tag.
  destruct (fetch_loop fuel (initial repo)) as [[st |] | e |] eqn:E;
    try discriminate.
  - intros [= H]. right.
    destruct (select_latest_None V parse vcmp legacy_defined _ H)
      as [Hnil | (Hdef & t & Ht & Hp)].
    + left. exists st. auto.
    + right. split; [exact Hdef |]. exists st, t. auto.
  - intros _. left. apply fetch_loop_None. exact E.
Qed.

Lemma fetch_loop_Raised fuel st e :
  fetch_loop fuel st = Raised e ->
  (e = AttributeError \/ e = KeyError \/ e = TypeError) /\
  exists url, response_ok (http_get url) = false.
Proof.
  revert st. induction fuel as [| fuel IH]; intros st; simpl.
  - destruct (loop_guard st); discriminate.
  - destruct (loop_guard st); [| discriminate].
    destruct (try_page st (next_url st)) as [st1 | e1] eqn:E; [apply IH |].
    destruct (try_page_Raise _ _ _ E) as [[-> _] | [He Hbad]]; [discriminate |].
    intros H.
    assert (e1 = e) by (destruct e1; congruence). subst e1.
    split; [exact He | eauto].
Qed.

(** X3.  An exception that leaves [get_latest_tag] is an
    [AttributeError], a [KeyError] or a [TypeError], never a
    [RequestException], and some response of the registry then has a body
    of another shape than the documented one. *)
Theorem only_shape_errors_escape fuel repo e :
  get_latest_tag fuel repo = Raised e ->
  (e = AttributeError \/ e = KeyError \/ e = TypeError) /\
  exists url, response_ok (http_get url) = false.
Proof.
  unfold get_latest_tag.
  destruct (fetch_loop fuel (initial repo)) as [[st |] | e' |] eqn:E;
    try discriminate.
  intros [= ->]. eapply fetch_loop_Raised; eauto.
Qed.

Lemma initial_guard repo : loop_guard (initial repo) = true.
Proof. reflexivity. Qed.

Lemma fetch_loop_after_pages fuel st st' :
  fetch_loop fuel st = Return (Some st') ->
  exists k,
    after_pages k st = Some st' /\ loop_guard st' = false /\
    current_page st' = k + current_page st.
Proof.
  revert st. induction fuel as [| fuel IH]; intros st; simpl.
  - destruct (loop_guard st) eqn:G; [discriminate |].
    intros [= <-]. exists 0. auto.
  - destruct (loop_guard st) eqn:G; [| intros [= <-]; exists 0; auto].
    destruct (try_page st (next_url st)) as [st1 | e] eqn:E;
      [| destruct e; discriminate].
    intros H. destruct (IH st1 H) as (k & Hk & Hg & Hc).
    exists (S k). simpl. rewrite G, E.
    split; [exact Hk |]. split; [exact Hg |].
    apply try_page_Ok in E. destruct E as (? & ? & ? & _ & _ & ->).
    simpl in Hc. lia.
Qed.

(** After at least one turn from locals whose budget is one page ahead,
    the loop goes on exactly when fewer than five candidates are known
    and the last page names a next one. *)
Lemma after_pages_guard k st st' :
  max_pages st = S (current_page st) ->
  after_pages (S k) st = Some st' ->
  loop_guard st' =
    (List.length (all_tags st') <? 5)%nat && opt_truthy (tags_url st') /\
  (loop_guard st' = true -> max_pages st' = S (current_page st')).
Proof.
  revert st. induction k as [| k IH]; intros st Hinv; simpl.
  - destruct (loop_guard st); [| discriminate].
    destruct (try_page st (next_url st)) as [st1 | e] eqn:E; [| discriminate].
    intros [= <-]. eapply loop_goes_on; eauto.
  - destruct (loop_guard st) eqn:G; [| discriminate].
    destruct (try_page st (next_url st)) as [st1 | e] eqn:E; [| discriminate].
    intros H.
    destruct (loop_goes_on _ _ _ _ Hinv E) as [_ Hnext].
    apply (IH st1); [| exact H].
    apply Hnext. simpl in H. destruct (loop_guard st1); [reflexivity | discriminate].
Qed.

(** X4.  When the loop ends normally, at least one page was fetched,
    [current_page] counts the pages fetched, and either the last page
    named no next page or at least five candidates are known. *)
Theorem loop_ends_with_enough_or_no_next fuel repo st :
  fetch_loop fuel (initial repo) = Return (Some st) ->
  1 <= current_page st /\
  after_pages (current_page st) (initial repo) = Some st /\
  (opt_truthy (tags_url st) = false \/ 5 <= List.length (all_tags st)).
Proof.
  intros H. destruct (fetch_loop_after_pages _ _ _ H) as (k & Hk & Hg & Hc).
  simpl in Hc. rewrite Nat.add_0_r in Hc. subst k.
  destruct (current_page st) as [| k] eqn:Ek.
  - simpl in Hk. injection Hk as <-. rewrite initial_guard in Hg. discriminate.
  - split; [lia |]. split; [exact Hk |].
    destruct (after_pages_guard k (initial repo) st eq_refl Hk) as [Hguard _].
    rewrite Hg in Hguard. symmetry in Hguard.
    apply andb_false_iff in Hguard. destruct Hguard as [Hlen | Hnext].
    + right. apply Nat.ltb_ge in Hlen. exact Hlen.
    + left. exact Hnext.
Qed.

(** X5.  When the first page lists at least five names with a digit,
    exactly one request is made, whatever the page says about a next
    page, and the result is selected among the names of that page. *)
Theorem first_page_with_five_is_enough fuel repo l next names :
  http_get (endpoint repo) = Json (Dict (ResultsList l) next) ->
  digit_names l = Ok names ->
  5 <= List.length names ->
  fetch_loop (S fuel) (initial repo) = Return (Some (Locals next names 1 1)) /\
  get_latest_tag (S fuel) repo = Return (select_latest names).
Proof.
  intros Hget Hnames Hlen.
  assert (H : fetch_loop (S fuel) (initial repo)
              = Return (Some (Locals next names 1 1))).
  { rewrite fetch_loop_turn by apply initial_guard.
    unfold try_page. change (next_url (initial repo)) with (endpoint repo).
    rewrite Hget. simpl. rewrite Hnames. simpl.
    assert (E : (List.length names <? 5)%nat = false) by (apply Nat.ltb_ge; lia).
    rewrite E. simpl. apply fetch_loop_exit.
    unfold loop_guard. simpl. apply andb_false_r. }
  split; [exact H |].
  unfold get_latest_tag. rewrite H. reflexivity.
Qed.

Lemma digit_names_adds l names :
  digit_names l = Ok names -> existsb entry_adds l = true -> names <> [].
Proof.
  revert names. induction l as [| tag rest IH]; simpl; intros names;
    [discriminate |].
  destruct tag as [n | |]; simpl; try discriminate.
  destruct (digit_names rest) as [ns |]; simpl; [| discriminate].
  destruct (any_isdigit n); simpl; intros [= <-] H; [discriminate |].
  apply (IH ns eq_refl H).
Qed.

Lemma try_page_adds st url st' :
  page_adds (http_get url) = true ->
  try_page st url = Ok st' ->
  List.length (all_tags st) < List.length (all_tags st').
Proof.
  intros Hadds H. apply try_page_Ok in H.
  destruct H as (results & names & next & Hget & Hn & ->). simpl.
  rewrite Hget in Hadds. simpl in Hadds.
  destruct results as [| | l]; simpl in Hn; try discriminate.
  pose proof (digit_names_adds _ _ Hn Hadds) as Hne.
  rewrite length_app. destruct names; [congruence | simpl; lia].
Qed.

Lemma one_ahead_next st st' :
  one_ahead st -> loop_guard st = true ->
  try_page st (next_url st) = Ok st' -> one_ahead st'.
Proof.
  intros Hst G E G'. destruct (Hst G) as [_ Hinv].
  destruct (loop_goes_on _ _ _ _ Hinv E) as [Hguard Hnext].
  split; [| auto].
  rewrite G' in Hguard. symmetry in Hguard.
  apply andb_true_iff in Hguard. destruct Hguard as [Hlen _].
  apply Nat.ltb_lt in Hlen. exact Hlen.
Qed.

(** When every page adds a candidate, five turns are enough. *)
Lemma fetch_loop_finishes fuel st :
  (forall url, page_adds (http_get url) = true) ->
  one_ahead st ->
  5 <= fuel + List.length (all_tags st) ->
  fetch_loop fuel st <> NoFuel.
Proof.
  intros Hadds. revert st. induction fuel as [| fuel IH]; intros st Hst Hlen.
  - destruct (loop_guard st) eqn:G.
    + destruct (Hst eq_refl). simpl in Hlen. lia.
    + rewrite fetch_loop_exit by exact G. discriminate.
  - destruct (loop_guard st) eqn:G.
    + assert (Hst' : one_ahead st) by (intros _; exact (Hst eq_refl)).
      rewrite fetch_loop_turn by exact G.
      destruct (try_page st (next_url st)) as [st1 | e] eqn:E.
      * apply IH; [eapply one_ahead_next; eauto |].
        pose proof (try_page_adds _ _ _ (Hadds _) E). lia.
      * destruct e; discriminate.
    + rewrite fetch_loop_exit by exact G. discriminate.
Qed.

Lemma fetch_loop_pages fuel st st' :
  (forall url, page_adds (http_get url) = true) ->
  one_ahead st ->
  current_page st <= List.length (all_tags st) ->
  current_page st <= 5 ->
  fetch_loop fuel st = Return (Some st') ->
  current_page st' <= 5.
Proof.
  intros Hadds. revert st. induction fuel as [| fuel IH]; intros st Hst Hcur H5.
  - simpl. destruct (loop_guard st); [discriminate |]. intros [= <-]. exact H5.
  - destruct (loop_guard st) eqn:G.
    + assert (Hst' : one_ahead st) by (intros _; exact (Hst eq_refl)).
      rewrite fetch_loop_turn by exact G.
      destruct (try_page st (next_url st)) as [st1 | e] eqn:E;
        [| destruct e; discriminate].
      pose proof (try_page_adds _ _ _ (Hadds _) E) as Hgrow.
      destruct (Hst eq_refl) as [Hfew _].
      assert (Hc1 : current_page st1 = S (current_page st)).
      { apply try_page_Ok in E. destruct E as (? & ? & ? & _ & _ & ->).
        reflexivity. }
      apply IH; [eapply one_ahead_next; eauto | lia | lia].
    + rewrite fetch_loop_exit by exact G. intros [= <-]. exact H5.
Qed.

Lemma initial_one_ahead repo : one_ahead (initial repo).
Proof. intros _. simpl. split; [lia | reflexivity]. Qed.

Lemma get_latest_tag_finishes fuel repo :
  (forall url, page_adds (http_get url) = true) ->
  5 <= fuel ->
  get_latest_tag fuel repo <> NoFuel.
Proof.
  intros Hadds Hfuel. unfold get_latest_tag.
  pose proof (fetch_loop_finishes fuel (initial repo) Hadds
                (initial_one_ahead repo)) as H.
  destruct (fetch_loop fuel (initial repo)) as [[st |] | e |];
    try discriminate.
  exfalso. apply H; [simpl; lia | reflexivity].
Qed.

(** X6.  When every response adds a candidate or ends the loop (a
    failed request, a body on which the turn raises, or a page with a
    name that contains a digit), [get_latest_tag] finishes within five
    turns of the loop and fetches at most five pages. *)
Theorem five_pages_when_every_page_adds fuel repo :
  (forall url, page_adds (http_get url) = true) ->
  5 <= fuel ->
  get_latest_tag fuel repo <> NoFuel /\
  (forall st, fetch_loop fuel (initial repo) = Return (Some st) ->
              current_page st <= 5).
Proof.
  intros Hadds Hfuel. split.
  - apply get_latest_tag_finishes; assumption.
  - intros st.
    apply fetch_loop_pages;
      [exact Hadds | apply initial_one_ahead | simpl; lia | simpl; lia].
Qed.
End ResolverMore.

(** * Further properties of the updater *)

Section UpdaterMore.
Variable V : Type.
Variable parse : string -> parsed V.
Variable vcmp : V -> V -> comparison.
Variable legacy_defined : bool.
Variable http_get : string -> response.
Variable safe_load : string -> result yaml.
Variable dump : yaml -> dumped.
Variable str : yaml -> string.

Abbreviation get_latest_tag := (get_latest_tag V parse vcmp legacy_defined http_get).
Abbreviation try_file :=
  (try_file V parse vcmp legacy_defined http_get safe_load dump str).
Abbreviation process_file :=
  (process_file V parse vcmp legacy_defined http_get safe_load dump str).
Abbreviation process_files :=
  (process_files V parse vcmp legacy_defined http_get safe_load dump str).
Abbreviation update_config_files :=
  (update_config_files V parse vcmp legacy_defined http_get safe_load dump str).
Abbreviation turn_of := (turn_of V parse vcmp legacy_defined http_get safe_load dump str).
Abbreviation format_value := (format_value str).
Abbreviation error_of t :=
  (match t with CountError => 1 | Spoil _ => 1 | _ => 0 end).
Abbreviation bump st :=
  (Tally (disk st) (updated_count st) (S (error_count st))).
Abbreviation quiet t :=
  (match t with Rewrite _ => False | Spoil _ => False | _ => True end).

(** A turn of the loop is the turn that the file calls for. *)
Lemma process_file_turn fuel st file_path :
  process_file fuel st file_path =
  apply_turn st file_path (turn_of fuel (disk st !! file_path)).
Proof.
  unfold process_file, try_file, open_read, turn_of, apply_turn.
  destruct (disk st !! file_path) as [f |] eqn:Hf; simpl; [| reflexivity].
  destruct (readable f); simpl; [| reflexivity].
  destruct (safe_load (contents f)) as [[] | e]; try reflexivity.
  destruct (dict_get "image" items) as [image |]; [| reflexivity].
  destruct (get_latest_tag fuel (format_value image)) as [[tag |] | e |];
    try reflexivity.
  destruct (str_truthy tag); simpl; [| reflexivity].
  destruct (differs (dict_get "version" items) tag); simpl; [| reflexivity].
  unfold open_write. rewrite Hf. destruct (writable f); [| reflexivity].
  destruct (dump _); reflexivity.
Qed.

(** The file that a writing turn finds is readable and writable. *)
Lemma turn_of_writes fuel o text :
  turn_of fuel o = Rewrite text \/ turn_of fuel o = Spoil text ->
  exists f, o = Some f /\ readable f = true /\ writable f = true.
Proof.
  unfold turn_of. destruct o as [f |]; [| intros [|]; discriminate].
  destruct (readable f) eqn:Hr; [| intros [|]; discriminate].
  destruct (safe_load (contents f)) as [[] | e]; try (intros [|]; discriminate).
  destruct (dict_get "image" items) as [image |]; [| intros [|]; discriminate].
  destruct (get_latest_tag fuel (format_value image)) as [[tag |] | e |];
    try (intros [|]; discriminate).
  destruct (str_truthy tag && differs (dict_get "version" items) tag);
    [| intros [|]; discriminate].
  destruct (writable f) eqn:Hw; [| intros [|]; discriminate]. eauto.
Qed.

(** What a turn does to the tree and the counters. *)
Lemma apply_turn_Some fuel st file_path st' :
  apply_turn st file_path (turn_of fuel (disk st !! file_path)) = Some st' ->
  match turn_of fuel (disk st !! file_path) with
  | Leave => st' = st
  | CountError => st' = bump st
  | Rewrite text =>
      exists f, disk st !! file_path = Some f /\
                readable f = true /\ writable f = true /\
                st' = Tally (<[file_path := File text (readable f) (writable f)]>
                               (disk st))
                            (S (updated_count st)) (error_count st)
  | Spoil partial =>
      exists f, disk st !! file_path = Some f /\
                readable f = true /\ writable f = true /\
                st' = Tally (<[file_path := File partial (readable f) (writable f)]>
                               (disk st))
                            (updated_count st) (S (error_count st))
  | Unfinished => False
  end.
Proof.
  destruct (turn_of fuel (disk st !! file_path)) as [| | text | partial |] eqn:E;
    simpl.
  - intros [= <-]. reflexivity.
  - intros [= <-]. reflexivity.
  - destruct (turn_of_writes _ _ _ (or_introl E)) as (f & Hf & Hr & Hw).
    destruct (open_write_Ok _ _ _ Hf Hw) as [opened Hopen]. rewrite Hopen.
    destruct (write_opened _ _ _ _ text Hf Hopen) as [_ ->].
    intros [= <-]. exists f. rewrite Hw. auto.
  - destruct (turn_of_writes _ _ _ (or_intror E)) as (f & Hf & Hr & Hw).
    destruct (open_write_Ok _ _ _ Hf Hw) as [opened Hopen]. rewrite Hopen.
    destruct (write_opened _ _ _ _ partial Hf Hopen) as [_ ->].
    intros [= <-]. exists f. rewrite Hw. auto.
  - discriminate.
Qed.

Lemma process_file_counters fuel st file_path st' :
  process_file fuel st file_path = Some st' ->
  (updated_count st' = updated_count st /\ error_count st' = error_count st /\
   disk st' = disk st) \/
  (updated_count st' = updated_count st /\ error_count st' = S (error_count st)) \/
  (updated_count st' = S (updated_count st) /\ error_count st' = error_count st).
Proof.
  rewrite process_file_turn. intros H. apply apply_turn_Some in H.
  destruct (turn_of fuel (disk st !! file_path)).
  - subst. auto.
  - subst. simpl. auto.
  - destruct H as (f & _ & _ & _ & ->). simpl. auto.
  - destruct H as (f & _ & _ & _ & ->). simpl. auto.
  - destruct H.
Qed.

Lemma process_files_counters fuel paths st st' :
  process_files fuel st paths = Some st' ->
  updated_count st <= updated_count st' /\
  error_count st <= error_count st' /\
  updated_count st' + error_count st' <=
    updated_count st + error_count st + List.length paths.
Proof.
  revert st. induction paths as [| path rest IH]; intros st; simpl.
  - intros [= <-]. lia.
  - destruct (process_file fuel st path) as [st1 |] eqn:E; [| discriminate].
    intros H. specialize (IH st1 H).
    destruct (process_file_counters _ _ _ _ E) as [(? & ? & _) | [(? & ?) | (? & ?)]];
      lia.
Qed.

(** X9.  A run counts every visited file at most once: the two counters
    together do not exceed the number of files visited. *)
Theorem counters_bounded_by_files fuel walk tree st :
  update_config_files fuel walk tree = Some st ->
  updated_count st + error_count st <= List.length (config_paths walk).
Proof.
  intros H. apply process_files_counters in H. simpl in H. lia.
Qed.










(** A file that was rewritten calls for no further change, and no write
    to it breaks off, when [yaml.dump] writes the mapping in full and the
    YAML library reads it back. *)
Lemma turn_of_rewritten fuel f :
  (forall config image tag,
      safe_load (contents f) = Ok (YMap config) ->
      dict_get "image" config = Some image ->
      get_latest_tag fuel (format_value image) = Return (Some tag) ->
      exists text,
        dump (YMap (dict_set "version" (YStr tag) config)) = Dumped text /\
        safe_load text = Ok (YMap (dict_set "version" (YStr tag) config))) ->
  (forall text,
      turn_of fuel (Some f) = Rewrite text ->
      turn_of fuel (Some (File text (readable f) (writable f))) = Leave) /\
  (forall partial, turn_of fuel (Some f) <> Spoil partial).
Proof.
  intros Hback. split.
  - intros text. unfold turn_of at 1.
    destruct (readable f) eqn:Hr; [| discriminate].
    destruct (safe_load (contents f)) as [[] | e] eqn:Hload; try discriminate.
    destruct (dict_get "image" items) as [image |] eqn:Himage; [| discriminate].
    destruct (get_latest_tag fuel (format_value image)) as [[tag |] | e |] eqn:Hget;
      try discriminate.
    destruct (str_truthy tag && differs (dict_get "version" items) tag);
      [| discriminate].
    destruct (writable f); [| discriminate].
    destruct (Hback _ _ _ eq_refl Himage Hget) as (text' & -> & Hload').
    intros [= <-]. unfold turn_of. simpl.
    rewrite Hload'.
    rewrite dict_get_set_ne by discriminate. rewrite Himage, Hget.
    rewrite dict_get_set_eq.
    assert (E : differs (Some (YStr tag)) tag = false)
      by (apply differs_false; reflexivity).
    rewrite E, andb_false_r. reflexivity.
  - intros partial. unfold turn_of.
    destruct (readable f) eqn:Hr; [| discriminate].
    destruct (safe_load (contents f)) as [[] | e] eqn:Hload; try discriminate.
    destruct (dict_get "image" items) as [image |] eqn:Himage; [| discriminate].
    destruct (get_latest_tag fuel (format_value image)) as [[tag |] | e |] eqn:Hget;
      try discriminate.
    destruct (str_truthy tag && differs (dict_get "version" items) tag);
      [| discriminate].
    destruct (writable f); [| discriminate].
    destruct (Hback _ _ _ eq_refl Himage Hget) as (text' & -> & _).
    discriminate.
Qed.

Lemma settle_settle t : settle (settle t) = settle t.
Proof. destruct t; reflexivity. Qed.

Lemma quiet_settle t : (forall partial, t <> Spoil partial) -> quiet (settle t).
Proof. destruct t; simpl; try tauto. intros H. exact (H partial eq_refl). Qed.

Section SecondRun.
Variable fuel : nat.
Variable tree : gmap string file.
Hypothesis reads_back :
  forall p f config image tag,
    tree !! p = Some f ->
    safe_load (contents f) = Ok (YMap config) ->
    dict_get "image" config = Some image ->
    get_latest_tag fuel (format_value image) = Return (Some tag) ->
    exists text,
      dump (YMap (dict_set "version" (YStr tag) config)) = Dumped text /\
      safe_load text = Ok (YMap (dict_set "version" (YStr tag) config)).

(** Every file is as it was at the start, or calls for no writing. *)
Abbreviation fresh_or_settled d :=
  (forall p, d !! p = tree !! p \/ quiet (turn_of fuel (d !! p))).

Lemma no_write_breaks_off (d : gmap string file) (p partial : string) :
  fresh_or_settled d -> turn_of fuel (d !! p) <> Spoil partial.
Proof using reads_back.
  intros Hinv E. destruct (Hinv p) as [Hfresh | Hquiet].
  - destruct (turn_of_writes _ _ _ (or_intror E)) as (f & Hf & _ & _).
    rewrite Hf in Hfresh, E. symmetry in Hfresh.
    refine (proj2 (turn_of_rewritten fuel f _) partial E).
    intros config image tag. apply (reads_back p f). exact Hfresh.
  - rewrite E in Hquiet. exact Hquiet.
Qed.

Lemma process_file_settles st file_path st' :
  fresh_or_settled (disk st) ->
  process_file fuel st file_path = Some st' ->
  turn_of fuel (disk st' !! file_path)
  = settle (turn_of fuel (disk st !! file_path)) /\
  (forall q, q <> file_path -> disk st' !! q = disk st !! q) /\
  error_count st' = error_count st + error_of (turn_of fuel (disk st !! file_path)) /\
  updated_count st' =
    updated_count st +
    match turn_of fuel (disk st !! file_path) with Rewrite _ => 1 | _ => 0 end.
Proof using reads_back.
  intros Hinv. rewrite process_file_turn. intros H.
  apply apply_turn_Some in H.
  pose proof (fun partial => no_write_breaks_off (disk st) file_path partial Hinv)
    as Hwhole.
  destruct (turn_of fuel (disk st !! file_path)) as [| | text | partial |] eqn:E.
  - subst. rewrite E. simpl. repeat split; auto; lia.
  - subst. simpl. rewrite E. simpl. repeat split; auto; lia.
  - destruct H as (f & Hf & Hr & Hw & ->). simpl.
    split; [| split; [| split; lia]].
    + rewrite lookup_insert_eq.
      destruct (Hinv file_path) as [Hfresh | Hquiet].
      * rewrite Hf in Hfresh, E. symmetry in Hfresh.
        refine (proj1 (turn_of_rewritten fuel f _) text E).
        intros config image tag. apply (reads_back file_path f). exact Hfresh.
      * rewrite E in Hquiet. destruct Hquiet.
    + intros q Hq. apply lookup_insert_ne. congruence.
  - elim (Hwhole partial). reflexivity.
  - destruct H.
Qed.

Lemma process_files_settle paths st st' :
  fresh_or_settled (disk st) ->
  process_files fuel st paths = Some st' ->
  fresh_or_settled (disk st') /\
  (forall q, In q paths ->
             turn_of fuel (disk st' !! q) = settle (turn_of fuel (disk st !! q))) /\
  (forall q, ~ In q paths -> disk st' !! q = disk st !! q) /\
  error_count st <= error_count st' /\
  (forall u e,
      process_files fuel (Tally (disk st') u e) paths
      = Some (Tally (disk st') u (e + (error_count st' - error_count st)))).
Proof using reads_back.
  revert st. induction paths as [| path rest IH]; intros st Hinv; simpl.
  - intros [= <-]. repeat split; auto.
    + intros q [].
    + intros u e. f_equal. f_equal. lia.
  - destruct (process_file fuel st path) as [st1 |] eqn:E; [| discriminate].
    intros H.
    destruct (process_file_settles _ _ _ Hinv E) as (Hturn & Hother & Herr & _).
    pose proof (fun partial => no_write_breaks_off (disk st) path partial Hinv)
      as Hwhole.
    assert (Hinv1 : fresh_or_settled (disk st1)).
    { intros p. destruct (decide (p = path)) as [-> | Hne].
      - right. rewrite Hturn. apply quiet_settle. exact Hwhole.
      - rewrite (Hother p Hne). apply Hinv. }
    destruct (IH st1 Hinv1 H) as (Hinv' & Hin & Hout & Hle & Hagain).
    assert (Hpath : turn_of fuel (disk st' !! path)
                    = settle (turn_of fuel (disk st !! path))).
    { destruct (in_dec String.string_dec path rest) as [Hr | Hr].
      - rewrite (Hin path Hr), Hturn. apply settle_settle.
      - rewrite (Hout path Hr). exact Hturn. }
    split; [exact Hinv' |].
    split; [| split; [| split]].
    + intros q [<- | Hq]; [exact Hpath |].
      rewrite (Hin q Hq).
      destruct (decide (q = path)) as [-> | Hne].
      * rewrite Hturn. apply settle_settle.
      * rewrite (Hother q Hne). reflexivity.
    + intros q Hq. rewrite Hout by (intros Hr; apply Hq; right; exact Hr).
      apply Hother. intros ->. apply Hq. left. reflexivity.
    + lia.
    + intros u e. rewrite process_file_turn. simpl. rewrite Hpath.
      destruct (turn_of fuel (disk st !! path)) eqn:Et; simpl in *.
      * rewrite Hagain. f_equal. f_equal. lia.
      * rewrite Hagain. f_equal. f_equal. lia.
      * rewrite Hagain. f_equal. f_equal. lia.
      * elim (Hwhole partial). reflexivity.
      * rewrite process_file_turn, Et in E. discriminate.
Qed.
End SecondRun.

(** X13.  A second run, on the tree that a run has left and against the
    same registry, updates no file, leaves the tree as it is and counts
    the same errors, when for every file of the first tree that gets a
    tag [yaml.dump] writes the new mapping in full and the YAML library
    reads it back. *)
Theorem second_run_updates_nothing fuel walk tree st :
  (forall p f config image tag,
      tree !! p = Some f ->
      safe_load (contents f) = Ok (YMap config) ->
      dict_get "image" config = Some image ->
      get_latest_tag fuel (format_value image) = Return (Some tag) ->
      exists text,
        dump (YMap (dict_set "version" (YStr tag) config)) = Dumped text /\
        safe_load text = Ok (YMap (dict_set "version" (YStr tag) config))) ->
  update_config_files fuel walk tree = Some st ->
  update_config_files fuel walk (disk st) = Some (Tally (disk st) 0 (error_count st)).
Proof.
  intros Hback H. unfold update_config_files in *.
  assert (Hinv : forall p, tree !! p = tree !! p \/
                           quiet (turn_of fuel (tree !! p)))
    by (intros p; left; reflexivity).
  destruct (process_files_settle fuel tree Hback _ (Tally tree 0 0) st Hinv H)
    as (_ & _ & _ & _ & Hagain).
  rewrite Hagain. simpl. f_equal. f_equal. lia.
Qed.
End UpdaterMore.

(** * Logging and the command line *)

Lemma prefix_empty s : String.prefix "" s = true.
Proof. destruct s; reflexivity. Qed.

Lemma filter_emitted threshold records :
  List.filter is_file_error (emitted threshold records)
  = List.filter is_file_error records.
Proof.
  unfold emitted. induction records as [| [l message] rest IH]; simpl.
  - reflexivity.
  - destruct (level_value threshold <=? level_value l)%nat eqn:E; simpl.
    + rewrite IH. reflexivity.
    + destruct l; simpl; try exact IH.
      destruct threshold; discriminate.
Qed.

Lemma last_emitted (verbose : bool) records message :
  last (emitted (if verbose then DEBUG else INFO) (records ++ [(INFO, message)]))
  = Some (INFO, message).
Proof.
  unfold emitted. rewrite List.filter_app. simpl.
  destruct verbose; simpl; apply last_snoc.
Qed.

Lemma emitted_DEBUG records : emitted DEBUG records = records.
Proof.
  unfold emitted. induction records as [| [l message] rest IH].
  - reflexivity.
  - cbn [List.filter].
    assert (E : (level_value DEBUG <=? level_value (fst (l, message)))%nat = true)
      by (destruct l; reflexivity).
    rewrite E, IH. reflexivity.
Qed.

Lemma emitted_INFO records :
  emitted INFO records
  = List.filter (fun r => match fst r with DEBUG => false | _ => true end) records.
Proof.
  unfold emitted. apply List.filter_ext. intros [[] message]; reflexivity.
Qed.

Section LoggedFacts.
Variable V : Type.
Variable parse : string -> parsed V.
Variable vcmp : V -> V -> comparison.
Variable legacy_defined : bool.
Variable http_get : string -> response.
Variable safe_load : string -> result yaml.
Variable dump : yaml -> dumped.
Variable str : yaml -> string.
Variable exc_text : exn -> string.
Variable parse_args : list string -> parsed_args.
Variable os_walk : string -> list (string * list string * list string).

Abbreviation get_latest_tag := (get_latest_tag V parse vcmp legacy_defined http_get).
Abbreviation get_latest_tag_log :=
  (get_latest_tag_log V parse vcmp legacy_defined http_get exc_text).
Abbreviation try_file := (try_file V parse vcmp legacy_defined http_get safe_load dump str).
Abbreviation try_file_log :=
  (try_file_log V parse vcmp legacy_defined http_get safe_load dump str exc_text).
Abbreviation process_file :=
  (process_file V parse vcmp legacy_defined http_get safe_load dump str).
Abbreviation process_file_log :=
  (process_file_log V parse vcmp legacy_defined http_get safe_load dump str exc_text).
Abbreviation process_files :=
  (process_files V parse vcmp legacy_defined http_get safe_load dump str).
Abbreviation process_files_log :=
  (process_files_log V parse vcmp legacy_defined http_get safe_load dump str exc_text).
Abbreviation update_config_files :=
  (update_config_files V parse vcmp legacy_defined http_get safe_load dump str).
Abbreviation update_config_files_log :=
  (update_config_files_log V parse vcmp legacy_defined http_get safe_load dump str exc_text).
Abbreviation main :=
  (main V parse vcmp legacy_defined http_get safe_load dump str exc_text parse_args os_walk).

(** The logged functions return what the plain ones return. *)
Lemma get_latest_tag_log_fst fuel repo :
  fst (get_latest_tag_log fuel repo) = get_latest_tag fuel repo.
Proof.
  unfold get_latest_tag_log, get_latest_tag.
  destruct (fetch_loop http_get fuel (initial repo)) as [[st |] | e |];
    try reflexivity.
  destruct (valid_tags V parse legacy_defined (all_tags st)) as [[|] |];
    reflexivity.
Qed.

Lemma try_file_log_fst fuel st file_path :
  fst (try_file_log fuel st file_path) = try_file fuel st file_path.
Proof.
  unfold try_file_log, try_file.
  destruct (open_read (disk st) file_path ≫= safe_load) as [[] | e];
    try reflexivity.
  destruct (dict_get "image" items) as [image |]; [| reflexivity].
  rewrite <- get_latest_tag_log_fst.
  destruct (get_latest_tag_log fuel (format_value str image))
    as [[[tag |] | e |] records]; simpl; try reflexivity.
  destruct (str_truthy tag); [| reflexivity].
  destruct (differs (dict_get "version" items) tag); [| reflexivity].
  destruct (open_write _ _); [| reflexivity].
  destruct (dump _); reflexivity.
Qed.

Lemma process_file_log_fst fuel st file_path :
  option_map fst (process_file_log fuel st file_path)
  = process_file fuel st file_path.
Proof.
  unfold process_file_log, process_file. rewrite <- try_file_log_fst.
  destruct (try_file_log fuel st file_path) as [[st' [[] | e |]] records];
    reflexivity.
Qed.

Lemma process_files_log_fst fuel paths st :
  option_map fst (process_files_log fuel st paths) = process_files fuel st paths.
Proof.
  revert st. induction paths as [| path rest IH]; intros st; simpl.
  - reflexivity.
  - rewrite <- process_file_log_fst.
    destruct (process_file_log fuel st path) as [[st1 records] |]; simpl;
      [| reflexivity].
    rewrite <- IH.
    destruct (process_files_log fuel st1 rest) as [[st2 records'] |]; reflexivity.
Qed.

Lemma update_config_files_log_Some fuel walk tree st :
  update_config_files fuel walk tree = Some st ->
  exists records, update_config_files_log fuel walk tree = Some (st, records).
Proof.
  unfold update_config_files, update_config_files_log.
  rewrite <- process_files_log_fst.
  destruct (process_files_log fuel (Tally tree 0 0) (config_paths walk))
    as [[st' records] |]; simpl; [| discriminate].
  intros [= <-]. eauto.
Qed.

(** The resolver writes no record of line 117. *)
Lemma get_latest_tag_log_errors fuel repo :
  List.filter is_file_error (snd (get_latest_tag_log fuel repo)) = [].
Proof.
  unfold get_latest_tag_log.
  destruct (fetch_loop http_get fuel (initial repo)) as [[st |] | e |];
    try reflexivity.
  destruct (valid_tags V parse legacy_defined (all_tags st)) as [[|] |];
    reflexivity.
Qed.

Lemma process_file_log_errors fuel st file_path st' records :
  process_file_log fuel st file_path = Some (st', records) ->
  List.length (List.filter is_file_error records) + error_count st
  = error_count st'.
Proof.
  unfold process_file_log, try_file_log.
  destruct (open_read (disk st) file_path ≫= safe_load) as [[] | e];
    try (intros [= <- <-]; simpl; rewrite ?prefix_empty; reflexivity).
  destruct (dict_get "image" items) as [image |];
    [| intros [= <- <-]; reflexivity].
  pose proof (get_latest_tag_log_errors fuel (format_value str image)) as Hres.
  destruct (get_latest_tag_log fuel (format_value str image))
    as [[[tag |] | e |] resolver]; simpl in Hres;
    [destruct (str_truthy tag);
       [destruct (differs (dict_get "version" items) tag);
          [destruct (open_write _ _); [destruct (dump _) |] |] |] | | |];
    try discriminate;
    intros [= <- <-]; simpl;
    rewrite ?List.filter_app, Hres; simpl; rewrite ?prefix_empty; reflexivity.
Qed.

Lemma process_files_log_errors fuel paths st st' records :
  process_files_log fuel st paths = Some (st', records) ->
  List.length (List.filter is_file_error records) + error_count st
  = error_count st'.
Proof.
  revert st records. induction paths as [| path rest IH]; intros st records; simpl.
  - intros [= <- <-]. reflexivity.
  - destruct (process_file_log fuel st path) as [[st1 r1] |] eqn:E1;
      [| discriminate].
    destruct (process_files_log fuel st1 rest) as [[st2 r2] |] eqn:E2;
      [| discriminate].
    intros [= <- <-].
    rewrite List.filter_app, length_app.
    pose proof (process_file_log_errors _ _ _ _ _ E1).
    pose proof (IH _ _ E2). lia.
Qed.

(** X14.  In the log of a run there are as many records
    "Error processing ..." of level ERROR as [error_count] says: the
    errors that the resolver logs for failed requests are not among them
    and are not counted. *)
Theorem error_records_match_error_count fuel walk tree st records :
  update_config_files_log fuel walk tree = Some (st, records) ->
  update_config_files fuel walk tree = Some st /\
  List.length (List.filter is_file_error records) = error_count st.
Proof.
  intros H. split.
  - unfold update_config_files, update_config_files_log in *.
    rewrite <- process_files_log_fst, H. reflexivity.
  - apply process_files_log_errors in H. simpl in H. lia.
Qed.

(** X15.  When [argparse] leaves, [main] ends with its status and
    touches nothing.  Otherwise, for a run that completes, the exit
    status is 0 whatever [error_count] is, the tree is the one the run
    leaves, the log starts with the directory, ends with the summary of
    the two counters, and holds [error_count] records
    "Error processing ...". *)
Theorem main_exit_status fuel argv tree :
  (forall code, parse_args argv = SystemExit code ->
                main fuel argv tree = Some (code, [], tree)) /\
  (forall directory verbose st,
      parse_args argv = Args directory verbose ->
      update_config_files fuel (os_walk directory) tree = Some st ->
      exists records,
        main fuel argv tree = Some (0, records, disk st) /\
        head records
        = Some (INFO, "Starting update process in directory: " +:+ directory) /\
        last records = Some (summary st) /\
        List.length (List.filter is_file_error records) = error_count st).
Proof.
  unfold main. split.
  - intros code ->. reflexivity.
  - intros directory verbose st -> Hrun.
    destruct (update_config_files_log_Some _ _ _ _ Hrun) as [records Hlog].
    rewrite Hlog. eexists. split; [reflexivity |].
    split; [| split].
    + destruct verbose; reflexivity.
    + change (?x :: records ++ [summary st])
        with ((x :: records) ++ [summary st]).
      apply last_emitted.
    + rewrite filter_emitted. simpl. rewrite List.filter_app. simpl.
      rewrite app_nil_r.
      apply process_files_log_errors in Hlog. simpl in Hlog. lia.
Qed.

(** X16.  [--verbose] changes neither the exit status nor the tree: it
    adds the records of level DEBUG to the log, and nothing else. *)
Theorem verbose_adds_debug_records fuel argv argv' tree directory r :
  parse_args argv = Args directory true ->
  parse_args argv' = Args directory false ->
  main fuel argv tree = Some r ->
  main fuel argv' tree
  = Some (fst (fst r),
          List.filter (fun x => match fst x with DEBUG => false | _ => true end)
                      (snd (fst r)),
          snd r).
Proof.
  unfold main. intros -> ->.
  destruct (update_config_files_log fuel (os_walk directory) tree)
    as [[st records] |]; [| discriminate].
  intros [= <-]. simpl. rewrite emitted_DEBUG, emitted_INFO. reflexivity.
Qed.
End LoggedFacts.

(** * The further properties on the sample collaborators *)

Lemma returned_tag_is_listed_witness :
  has_digit "1.2.0" /\ "1.2.0" <> "" /\
  exists url l next,
    hub url = Json (Dict (ResultsList l) next) /\ In (Named "1.2.0") l.
Proof.
  apply (returned_tag_is_listed Dotted.version Dotted.parse Dotted.vcmp true hub
           5 "x/y" "1.2.0").
  reflexivity.
Defined.

Lemma None_has_three_causes_witness :
  (exists k st,
      k < 5 /\ after_pages hub k (initial "x/y") = Some st /\
      loop_guard st = true /\ hub (default "" (tags_url st)) = Failed) \/
  (exists st,
      fetch_loop hub 5 (initial "x/y") = Return (Some st) /\
      all_tags st = []) \/
  (false = false /\
   exists st t,
     fetch_loop hub 5 (initial "x/y") = Return (Some st) /\
     In t (all_tags st) /\ Dotted.parse_strict t <> Invalid).
Proof.
  apply (None_has_three_causes Dotted.version Dotted.parse_strict
           Dotted.vcmp false hub 5 "x/y").
  reflexivity.
Defined.

Lemma only_shape_errors_escape_witness :
  (TypeError = AttributeError \/ TypeError = KeyError \/ TypeError = TypeError) /\
  exists url, response_ok (hub url) = false.
Proof.
  apply (only_shape_errors_escape Dotted.version Dotted.parse Dotted.vcmp true hub
           5 "lib/null" TypeError).
  reflexivity.
Defined.

Lemma loop_ends_with_enough_or_no_next_witness :
  1 <= 2 /\
  after_pages hub 2 (initial "lib/sparse")
  = Some (Locals None ["2.0"; "2.1"] 2 2) /\
  (opt_truthy None = false \/ 5 <= List.length ["2.0"; "2.1"]).
Proof.
  apply (loop_ends_with_enough_or_no_next hub 5 "lib/sparse"
           (Locals None ["2.0"; "2.1"] 2 2)).
  reflexivity.
Defined.

Lemma first_page_with_five_is_enough_witness :
  fetch_loop busy 1 (initial "x/y")
  = Return (Some (Locals (Some (endpoint "x/y" +:+ "&page=2"))
                         ["3.0"; "2.2"; "2.1"; "2.0"; "1.9"] 1 1)) /\
  get_latest_tag Dotted.version Dotted.parse Dotted.vcmp true busy 1 "x/y"
  = Return (select_latest Dotted.version Dotted.parse Dotted.vcmp true
              ["3.0"; "2.2"; "2.1"; "2.0"; "1.9"]).
Proof.
  apply (first_page_with_five_is_enough Dotted.version Dotted.parse Dotted.vcmp true
           busy 0 "x/y"
           [Named "latest"; Named "3.0"; Named "2.2"; Named "2.1"; Named "2.0";
            Named "1.9"]).
  - reflexivity.
  - reflexivity.
  - simpl. lia.
Defined.

Lemma five_pages_when_every_page_adds_witness :
  get_latest_tag Dotted.version Dotted.parse Dotted.vcmp true steady 7 "x/y" <> NoFuel /\
  (forall st, fetch_loop steady 7 (initial "x/y") = Return (Some st) ->
              current_page st <= 5).
Proof.
  apply (five_pages_when_every_page_adds Dotted.version Dotted.parse Dotted.vcmp true
           steady 7 "x/y").
  - intros url. reflexivity.
  - lia.
Defined.

Example steady_takes_five_pages :
  option_map current_page
    match fetch_loop steady 7 (initial "x/y") with
    | Return st => st
    | _ => None
    end = Some 5.
Proof. reflexivity. Qed.

Lemma counters_bounded_by_files_witness :
  exists st,
    sample_update_config_files 5 = Some st /\
    updated_count st + error_count st <= List.length (config_paths tree_walk).
Proof.
  destruct (sample_update_config_files 5) as [st |] eqn:E.
  - exists st. split; [reflexivity |].
    exact (counters_bounded_by_files Dotted.version Dotted.parse Dotted.vcmp true hub
             Flat.safe_load Flat.dump Flat.str 5 tree_walk tree st E).
  - vm_compute in E. discriminate.
Defined.



Lemma tree_reads_back p f config image tag :
  tree !! p = Some f ->
  Flat.safe_load (contents f) = Ok (YMap config) ->
  dict_get "image" config = Some image ->
  get_latest_tag Dotted.version Dotted.parse Dotted.vcmp true hub 5
                 (format_value Flat.str image) = Return (Some tag) ->
  exists text,
    Flat.dump (YMap (dict_set "version" (YStr tag) config)) = Dumped text /\
    Flat.safe_load text = Ok (YMap (dict_set "version" (YStr tag) config)).
Proof.
  intros Hp. unfold tree in Hp. apply elem_of_list_to_map_2 in Hp.
  repeat (apply elem_of_cons in Hp as [Hp | Hp]);
    try (apply elem_of_nil in Hp; destruct Hp);
    injection Hp as -> ->;
    intros Hload; vm_compute in Hload; try discriminate;
    injection Hload as <-;
    intros Himage; vm_compute in Himage; try discriminate;
    injection Himage as <-;
    intros Hget; vm_compute in Hget; try discriminate;
    injection Hget as <-;
    (eexists; split; [reflexivity |]); vm_compute; reflexivity.
Qed.

Lemma second_run_updates_nothing_witness :
  exists st,
    sample_update_config_files 5 = Some st /\
    update_config_files Dotted.version Dotted.parse Dotted.vcmp true hub
                        Flat.safe_load Flat.dump Flat.str 5 tree_walk (disk st)
    = Some (Tally (disk st) 0 (error_count st)).
Proof.
  destruct (sample_update_config_files 5) as [st |] eqn:E.
  - exists st. split; [reflexivity |].
    exact (second_run_updates_nothing Dotted.version Dotted.parse Dotted.vcmp true hub
             Flat.safe_load Flat.dump Flat.str 5 tree_walk tree st
             tree_reads_back E).
  - vm_compute in E. discriminate.
Defined.

Example second_run_counters :
  option_map (fun st => (updated_count st, error_count st))
    (match sample_update_config_files 5 with
     | Some st =>
         update_config_files Dotted.version Dotted.parse Dotted.vcmp true hub
           Flat.safe_load Flat.dump Flat.str 5 tree_walk (disk st)
     | None => None
     end) = Some (0, 4).
Proof. vm_compute. reflexivity. Qed.

Lemma error_records_match_error_count_witness :
  exists st records,
    update_config_files_log Dotted.version Dotted.parse Dotted.vcmp true hub
      Flat.safe_load Flat.dump Flat.str sample_exc_text 5 tree_walk tree
    = Some (st, records) /\
    sample_update_config_files 5 = Some st /\
    List.length (List.filter is_file_error records) = error_count st.
Proof.
  destruct (update_config_files_log Dotted.version Dotted.parse Dotted.vcmp true hub
              Flat.safe_load Flat.dump Flat.str sample_exc_text 5 tree_walk tree)
    as [[st records] |] eqn:E.
  - exists st, records. split; [reflexivity |].
    exact (error_records_match_error_count Dotted.version Dotted.parse
             Dotted.vcmp true hub Flat.safe_load Flat.dump Flat.str sample_exc_text
             5 tree_walk tree st records E).
  - vm_compute in E. discriminate.
Defined.

Lemma verbose_adds_debug_records_witness :
  exists r,
    sample_main 5 ["-v"] = Some r /\
    sample_main 5 []
    = Some (fst (fst r),
            List.filter (fun x => match fst x with DEBUG => false | _ => true end)
                        (snd (fst r)),
            snd r).
Proof.
  destruct (sample_main 5 ["-v"]) as [r |] eqn:E.
  - exists r. split; [reflexivity |].
    exact (verbose_adds_debug_records Dotted.version Dotted.parse Dotted.vcmp true hub
             Flat.safe_load Flat.dump Flat.str sample_exc_text
             sample_parse_args sample_os_walk 5 ["-v"] [] tree "." r
             eq_refl eq_refl E).
  - vm_compute in E. discriminate.
Defined.

Example main_on_tree :
  option_map (fun r => (fst (fst r), last (snd (fst r)))) (sample_main 5 []) =
  Some (0, Some (INFO, "Process completed. Updated 2 files with 4 errors.")).
Proof. vm_compute. reflexivity. Qed.

Example main_bad_usage : sample_main 5 ["--frobnicate"] = Some (2, [], tree).
Proof. reflexivity. Qed.
